(** * python-docx: the block item container (docx/blkcntnr.py)

    A shallow embedding of [BlockItemContainer], the proxy class shared by
    the document body, table cells, headers and footers.  The container is
    a view over one element of the document's XML tree: it appends
    paragraphs and tables to that element, reads them back in document
    order, groups paragraphs into lists by their numbering identifier and
    draws fresh numbering identifiers at random.

    The XML tree is the shared mutable store.  Proxies (containers,
    paragraphs, tables, list groups) are handles into it, so a change made
    through one proxy is seen through every other one.  A document has
    one such tree per part (the main part with the body, every header,
    every footer); a proxy belongs to the tree of its part. *)

From Stdlib Require Import ZArith List String DecimalString DecimalPos DecimalZ Lia.
From stdpp Require Import base option list strings gmap sorting.

Local Open Scope string_scope.
Local Open Scope list_scope.
Local Open Scope nat_scope.
#[local] Set Warnings "-register-all".

(* ################################################################## *)
(** * Part I: the program *)
(* ################################################################## *)

(* ================================================================== *)
(** ** The XML tree *)
(* ================================================================== *)

(** An lxml element: a qualified tag, an attribute dictionary, the text
    directly inside the element, and the child elements in document
    order. *)
Inductive elem : Type :=
  Elem { tag : string;
         attrib : gmap string string;
         text : string;
         children : list elem }.

(** Induction over a tree needs the hypothesis for every child. *)
Fixpoint elem_forall_ind (P : elem → Prop)
    (step : ∀ t a x cs, Forall P cs → P (Elem t a x cs)) (e : elem) : P e :=
  match e with
  | Elem t a x cs =>
      step t a x cs
        ((fix go (l : list elem) : Forall P l :=
            match l with
            | [] => @List.Forall_nil _ P
            | c :: l' =>
                @List.Forall_cons _ P c l' (elem_forall_ind P step c) (go l')
            end) cs)
  end.

(** A handle on an element: the child indices that lead to it from the
    root of its tree.  Python holds a reference to the element object;
    the blocks appended by the container go to the tail of a child list,
    so a handle keeps naming the same element. *)
Definition path := list nat.

Fixpoint elem_at (e : elem) (p : path) : option elem :=
  match p with
  | [] => Some e
  | i :: p' => children e !! i ≫= λ c, elem_at c p'
  end.

(** In-place change of the element a handle names; the rest of the tree
    is rebuilt around it unchanged. *)
Fixpoint alter_at (f : elem → elem) (p : path) (e : elem) : elem :=
  match p with
  | [] => f e
  | i :: p' =>
      Elem (tag e) (attrib e) (text e) (alter (alter_at f p') i (children e))
  end.

(** [element.append(child)]. *)
Definition append (c : elem) (e : elem) : elem :=
  Elem (tag e) (attrib e) (text e) (children e ++ [c]).

(** [element.insert(0, child)]. *)
Definition insert_first (c : elem) (e : elem) : elem :=
  Elem (tag e) (attrib e) (text e) (c :: children e).

(** [element.set(name, value)]. *)
Definition set_attr (k v : string) (e : elem) : elem :=
  Elem (tag e) (<[k := v]> (attrib e)) (text e) (children e).

(** [element.find(tag)]: the first child with the tag. *)
Definition find_child (t : string) (e : elem) : option elem :=
  list_find (λ c, tag c = t) (children e) ≫= λ ic, Some ic.2.

(** [element.findall(tag)]: the children with the tag, with their
    positions, in document order. *)
Definition findall (t : string) (e : elem) : list (nat * elem) :=
  filter (λ ic, tag ic.2 = t) (imap pair (children e)).

(* ================================================================== *)
(** ** XPath: the one query the container issues *)
(* ================================================================== *)

(** The descendant-or-self axis, in document order. *)
Fixpoint descendant_or_self (e : elem) : list elem :=
  match e with
  | Elem _ _ _ cs => e :: (cs ≫= descendant_or_self)
  end.

(** The node test and predicate of [//name[@attr='val']]. *)
Record node_test := NodeTest { nt_name : string; nt_attr : string; nt_val : string }.

Definition satisfies (q : node_test) (e : elem) : Prop :=
  tag e = nt_name q ∧ attrib e !! nt_attr q = Some (nt_val q).

Global Instance satisfies_dec q e : Decision (satisfies q e).
Proof. unfold satisfies. apply _. Defined.

(** [context.xpath("//name[@attr='val']")].  An expression that starts
    with [//] is absolute: lxml evaluates it from the root of the tree
    that holds the context element, wherever in the tree that element
    sits.  [doc] is that root; the context handle plays no part. *)
Definition xpath_abs (doc : elem) (context : path) (q : node_test) : list elem :=
  filter (satisfies q) (descendant_or_self doc).

(* ================================================================== *)
(** ** Integers in attribute values *)
(* ================================================================== *)

(** ['%s' % n] for a Python int: the decimal numeral, with a minus sign
    for a negative number. *)
Definition str (n : Z) : string := NilZero.string_of_int (Z.to_int n).

(** Modelled from the spec: how the element classes read an integer
    attribute back, a decimal numeral with an optional minus sign. *)
Definition int (s : string) : option Z := Z.of_int <$> NilZero.int_of_string s.

(* ================================================================== *)
(** ** The world: document tree and random source *)
(* ================================================================== *)

(** [random] is a source of raw draws read one after the other.  The
    tree is the single store every proxy points into. *)
Record world := World { tree : elem; entropy : nat → Z; cursor : nat }.

Definition with_tree (t : elem) (w : world) : world :=
  World t (entropy w) (cursor w).

(** Computations on the world.  [None] stands for a call that has not
    returned: the only way to get there is a loop that ran out of fuel. *)
Definition M (A : Type) : Type := world → option (A * world).

Definition ret {A} (a : A) : M A := λ w, Some (a, w).

Definition bind {A B} (m : M A) (k : A → M B) : M B :=
  λ w, match m w with
       | Some (a, w') => k a w'
       | None => None
       end.

Notation "'let*' x ':=' m 'in' k" := (bind m (λ x, k))
  (at level 10, x name, m at level 100, k at level 200, only parsing).
Notation "'let*' ' p ':=' m 'in' k" := (bind m (λ x, let 'p := x in k))
  (at level 10, p strict pattern, m at level 100, k at level 200, only parsing).

(** Reading and changing the tree. *)
Definition get_tree : M elem := λ w, Some (tree w, w).
Definition modify_tree (f : elem → elem) : M unit :=
  λ w, Some (tt, with_tree (f (tree w)) w).

(** [random.randint(a, b)]: an integer [N] with [a <= N <= b], taken
    from the next raw draw. *)
Definition randint (a b : Z) : M Z :=
  λ w, Some ((a + entropy w (cursor w) `mod` (b - a + 1))%Z,
             World (tree w) (entropy w) (S (cursor w))).

(** [element.xpath(expr)] as a read of the store. *)
Definition xpath (context : path) (q : node_test) : M (list elem) :=
  λ w, Some (xpath_abs (tree w) context q, w).

(** [[f(x) for x in xs]] where [f] reads the store. *)
Fixpoint mapM {A B} (f : A → M B) (xs : list A) : M (list B) :=
  match xs with
  | [] => ret []
  | x :: xs' =>
      let* y := f x in
      let* ys := mapM f xs' in
      ret (y :: ys)
  end.

(* ================================================================== *)
(** ** Collaborators: the element classes and the proxies *)
(* ================================================================== *)

(** The methods below belong to modules of the package that the
    container imports ([docx.oxml], [docx.text], [docx.table],
    [docx.list]).  Each is written from what the specification says the
    container expects of it. *)

(** An element with nothing in it, as [OxmlElement(tag)] makes one. *)
Definition blank (t : string) : elem := Elem t ∅ "" [].

(** Get-or-add of a child element followed by a change of it: the first
    child with tag [t] is changed by [f]; when there is none, a blank one
    is made, changed and put first ([front]) or last. *)
Definition with_child (front : bool) (t : string) (f : elem → elem) (e : elem) : elem :=
  match list_find (λ c, tag c = t) (children e) with
  | Some (i, _) => Elem (tag e) (attrib e) (text e) (alter f i (children e))
  | None => if front then insert_first (f (blank t)) e else append (f (blank t)) e
  end.

(** *** Paragraph elements ([w:p]) *)

(** Modelled from the spec: the primitive that constructs an empty
    paragraph element ([CT_P], made by [add_p]). *)
Definition new_p : elem := blank "w:p".

(** Modelled from the spec: [Paragraph.add_run(text)], which adds a run
    carrying that text: [<w:r><w:t>text</w:t></w:r>] after the content
    the paragraph has. *)
Definition p_add_run (txt : string) : elem → elem :=
  append (Elem "w:r" ∅ "" [Elem "w:t" ∅ txt []]).

(** Modelled from the spec: the setter of [Paragraph.style], which
    attaches the style reference: [w:pPr/w:pStyle/@w:val]. *)
Definition p_set_style (style : string) : elem → elem :=
  with_child true "w:pPr" (with_child true "w:pStyle" (set_attr "w:val" style)).

(** Modelled from the spec: the setter of the paragraph's
    numbering-identifier: [w:pPr/w:numPr/w:numId/@w:val]. *)
Definition p_set_numId (numId : Z) : elem → elem :=
  with_child true "w:pPr"
    (with_child false "w:numPr"
       (with_child false "w:numId" (set_attr "w:val" (str numId)))).

(** Modelled from the spec: the setter of the paragraph's indentation
    level: [w:pPr/w:numPr/w:ilvl/@w:val]. *)
Definition p_set_level (level : Z) : elem → elem :=
  with_child true "w:pPr"
    (with_child false "w:numPr"
       (with_child true "w:ilvl" (set_attr "w:val" (str level)))).

(** Modelled from the spec: the text a run carries, that of its [w:t]
    children. *)
Definition r_text (r : elem) : string :=
  String.concat "" (map (λ ic, text ic.2) (findall "w:t" r)).

(** Modelled from the spec: the runs of text a paragraph carries, each
    given by its text. *)
Definition p_runs (p : elem) : list string :=
  map (λ ic, r_text ic.2) (findall "w:r" p).

(** Modelled from the spec: the optional style reference of a
    paragraph. *)
Definition p_style (p : elem) : option string :=
  find_child "w:pPr" p ≫= λ pPr,
  find_child "w:pStyle" pPr ≫= λ pStyle,
  attrib pStyle !! "w:val".

(** Modelled from the spec: the numbering-identifier attribute of a
    paragraph, as written in the tree: the [w:val] of
    [w:pPr/w:numPr/w:numId]. *)
Definition p_numId_attr (p : elem) : option string :=
  find_child "w:pPr" p ≫= λ pPr,
  find_child "w:numPr" pPr ≫= λ numPr,
  find_child "w:numId" numPr ≫= λ numId,
  attrib numId !! "w:val".

(** Modelled from the spec: the getter of [Paragraph.numId], the
    optional numbering-identifier ([None]: not part of any list). *)
Definition p_numId (p : elem) : option Z := p_numId_attr p ≫= int.

(** Modelled from the spec: the indentation-level attribute of a
    paragraph, the [w:val] of [w:pPr/w:numPr/w:ilvl]. *)
Definition p_level_attr (p : elem) : option string :=
  find_child "w:pPr" p ≫= λ pPr,
  find_child "w:numPr" pPr ≫= λ numPr,
  find_child "w:ilvl" numPr ≫= λ ilvl,
  attrib ilvl !! "w:val".

(** Modelled from the spec: the indentation level of a paragraph. *)
Definition p_level (p : elem) : option Z := p_level_attr p ≫= int.

(** *** Table elements ([w:tbl]) *)

(** Modelled from the spec: the widths of the columns of a new table,
    [width] divided into [cols] column widths by integer division, all
    remainder absorbed by the last column (the distribution the
    specification names), so that the widths of one or more columns add
    up to [width]; no column, no width. *)
Definition col_widths (cols : nat) (width : Z) : list Z :=
  match cols with
  | 0 => []
  | S k => replicate k (width / Z.of_nat cols)%Z
           ++ [(width - Z.of_nat k * (width / Z.of_nat cols))%Z]
  end.

(** Modelled from the spec: a column of the grid of a new table, with
    its width. *)
Definition new_gridCol (w : Z) : elem :=
  Elem "w:gridCol" (<["w:w" := str w]> ∅) "" [].

(** Modelled from the spec: a cell of a new table, with its width and
    an empty paragraph. *)
Definition new_tc (w : Z) : elem :=
  Elem "w:tc" ∅ ""
    [Elem "w:tcPr" ∅ ""
       [Elem "w:tcW" (<["w:type" := "dxa"]> (<["w:w" := str w]> ∅)) "" []];
     new_p].

(** Modelled from the spec: [CT_Tbl.new_tbl(rows, cols, width)], a
    table element with [rows] rows and [cols] columns: the grid holds one
    [w:gridCol] per column, of the width of the column, and every row one
    cell per column. *)
Definition new_tbl (rows cols : nat) (width : Z) : elem :=
  let ws := col_widths cols width in
  Elem "w:tbl" ∅ ""
    (Elem "w:tblPr" ∅ "" []
     :: Elem "w:tblGrid" ∅ "" (new_gridCol <$> ws)
     :: replicate rows (Elem "w:tr" ∅ "" (new_tc <$> ws))).

(** Modelled from the spec: the rows a table carries. *)
Definition tbl_rows (tbl : elem) : list elem := (findall "w:tr" tbl).*2.

(** Modelled from the spec: the cells of a row. *)
Definition tr_cells (tr : elem) : list elem := (findall "w:tc" tr).*2.

(** Modelled from the spec: the columns a table carries, those of its
    grid. *)
Definition tbl_columns (tbl : elem) : list elem :=
  default [] ((λ g, (findall "w:gridCol" g).*2) <$> find_child "w:tblGrid" tbl).

(** Modelled from the spec: the width of each column of a table. *)
Definition tbl_col_widths (tbl : elem) : list (option Z) :=
  map (λ c, attrib c !! "w:w" ≫= int) (tbl_columns tbl).

(** *** Block-item children of a container element *)

(** Modelled from the spec: [element.add_p()], which constructs an empty
    paragraph element and inserts it as the last block-item child; it
    gives back the new element. *)
Definition add_p (e : path) : M path :=
  let* t := get_tree in
  let n := length (default [] (children <$> elem_at t e)) in
  let* _ := modify_tree (alter_at (append new_p) e) in
  ret (e ++ [n]).

(** Modelled from the spec: [element._insert_tbl(tbl)], which inserts
    the table element as the last block-item child.  The handle of the
    inserted element is given back: Python goes on with the [tbl] object
    itself. *)
Definition _insert_tbl (e : path) (tbl : elem) : M path :=
  let* t := get_tree in
  let n := length (default [] (children <$> elem_at t e)) in
  let* _ := modify_tree (alter_at (append tbl) e) in
  ret (e ++ [n]).

(** Modelled from the spec: the children of an element with a given
    tag, in document order, as the [ZeroOrMore] child lists of the
    element classes give them. *)
Definition child_handles (t : string) (e : path) : M (list path) :=
  let* d := get_tree in
  ret (map (λ ic, e ++ [ic.1]) (default [] (findall t <$> elem_at d e))).

(** Modelled from the spec: [element.p_lst], the paragraph children. *)
Definition p_lst : path → M (list path) := child_handles "w:p".

(** Modelled from the spec: [element.tbl_lst], the table children. *)
Definition tbl_lst : path → M (list path) := child_handles "w:tbl".

(* ================================================================== *)
(** ** BlockItemContainer *)
(* ================================================================== *)

(** [__init__(self, element, parent)]: the proxy keeps its element and
    its parent proxy (named by the parent's element). *)
Record BlockItemContainer := { _element : path; _parent : path }.

(** [Paragraph(p, parent)]: the proxy of one paragraph element, with
    the container as parent. *)
Record Paragraph := { _p : path; p_parent : BlockItemContainer }.

(** [Table(tbl, parent)]: the proxy of one table element. *)
Record Table := { _tbl : path; tbl_parent : BlockItemContainer }.

(** Modelled from the spec: [ListParagraph(parent, numId, style,
    level)], a list group: a view tagged with a numbering identifier, a
    style and a level.  [style] and [level] are keyword arguments a
    caller may leave out. *)
Record ListParagraph :=
  { lp_parent : BlockItemContainer;
    numId : Z;
    lp_style : option string;
    lp_level : option Z }.

(** Modelled from the spec: the constructor of a list group tags the
    group with the identifier, the style and the level; it does not
    itself append a paragraph. *)
Definition ListParagraph_init (parent : BlockItemContainer) (numId : Z)
    (style : option string) (level : option Z) : M ListParagraph :=
  ret {| lp_parent := parent; numId := numId; lp_style := style; lp_level := level |}.

(** Modelled from the spec: [paragraph.add_run(text)]; a proxy method
    acts on the element the proxy names. *)
Definition Paragraph_add_run (p : Paragraph) (txt : string) : M unit :=
  modify_tree (alter_at (p_add_run txt) (_p p)).

(** Modelled from the spec: [paragraph.style = style]. *)
Definition Paragraph_set_style (p : Paragraph) (style : string) : M unit :=
  modify_tree (alter_at (p_set_style style) (_p p)).

(** Modelled from the spec: [paragraph.numId = n]. *)
Definition Paragraph_set_numId (p : Paragraph) (n : Z) : M unit :=
  modify_tree (alter_at (p_set_numId n) (_p p)).

(** Modelled from the spec: [paragraph.level = l]. *)
Definition Paragraph_set_level (p : Paragraph) (l : Z) : M unit :=
  modify_tree (alter_at (p_set_level l) (_p p)).

(** Modelled from the spec: [paragraph.numId], read from the store. *)
Definition Paragraph_numId (p : Paragraph) : M (option Z) :=
  let* d := get_tree in ret (elem_at d (_p p) ≫= p_numId).

(** The pattern ["//w:numId[@w:val='%s']" % numId]. *)
Definition numId_query (numId : Z) : node_test :=
  NodeTest "w:numId" "w:val" (str numId).

(** [generate_numId]: draw until a draw has no [w:numId] element with
    that value anywhere in the document.  The [while True] loop has no
    bound of its own; [fuel] bounds the number of draws looked at. *)
Fixpoint generate_numId (fuel : nat) (self : BlockItemContainer) : M Z :=
  match fuel with
  | 0 => λ _, None
  | S fuel' =>
      let* numId := randint 0 999999 in
      let* hits := xpath (_element self) (numId_query numId) in
      if length hits =? 0 then ret numId else generate_numId fuel' self
  end.

(** [_add_paragraph]. *)
Definition _add_paragraph (self : BlockItemContainer) : M Paragraph :=
  let* p := add_p (_element self) in
  ret {| _p := p; p_parent := self |}.

(** [add_paragraph(text='', style=None)]: [if text:] holds for a
    non-empty string. *)
Definition add_paragraph (self : BlockItemContainer)
    (txt : string) (style : option string) : M Paragraph :=
  let* paragraph := _add_paragraph self in
  let* _ := (if decide (txt = "") then ret tt
             else Paragraph_add_run paragraph txt) in
  let* _ := (match style with
             | Some s => Paragraph_set_style paragraph s
             | None => ret tt
             end) in
  ret paragraph.

(** [add_table(rows, cols, width)]. *)
Definition add_table (self : BlockItemContainer)
    (rows cols : nat) (width : Z) : M Table :=
  let tbl := new_tbl rows cols width in
  let* h := _insert_tbl (_element self) tbl in
  ret {| _tbl := h; tbl_parent := self |}.

(** [add_list(style=None, level=0)]. *)
Definition add_list (fuel : nat) (self : BlockItemContainer)
    (style : option string) (level : Z) : M ListParagraph :=
  let* numId := generate_numId fuel self in
  ListParagraph_init self numId style (Some level).

(** [paragraphs]. *)
Definition paragraphs (self : BlockItemContainer) : M (list Paragraph) :=
  let* ps := p_lst (_element self) in
  ret (map (λ p, {| _p := p; p_parent := self |}) ps).

(** [lists]: [set(nums)] is walked in an order Python does not fix; here
    it is the order of [elements]. *)
Definition lists (self : BlockItemContainer) : M (list ListParagraph) :=
  let* ps := paragraphs self in
  let* ids := mapM Paragraph_numId ps in
  let nums := omap id ids in
  mapM (λ numId, ListParagraph_init self numId None None)
       (elements (list_to_set nums : gset Z)).

(** [tables]. *)
Definition tables (self : BlockItemContainer) : M (list Table) :=
  let* ts := tbl_lst (_element self) in
  ret (map (λ t, {| _tbl := t; tbl_parent := self |}) ts).

(** Modelled from the spec: the members of a list group, the current
    paragraphs of the container whose numbering-identifier is the
    group's. *)
Definition ListParagraph_items (lp : ListParagraph) : M (list Paragraph) :=
  let* ps := paragraphs (lp_parent lp) in
  let* ids := mapM Paragraph_numId ps in
  ret (omap (λ pi, if decide (pi.2 = Some (numId lp)) then Some pi.1 else None)
            (zip ps ids)).

(** Modelled from the spec: populating a list group makes a paragraph
    through the container's own [add_paragraph] and attaches the group's
    level and numbering-identifier to it. *)
Definition ListParagraph_add_item (lp : ListParagraph)
    (txt : string) (style : option string) : M Paragraph :=
  let* item := add_paragraph (lp_parent lp) txt style in
  let* _ := Paragraph_set_level item (default 0%Z (lp_level lp)) in
  let* _ := Paragraph_set_numId item (numId lp) in
  ret item.

(** What a proxy shows of the store right now. *)
Definition resolve (w : world) (p : path) : option elem := elem_at (tree w) p.

(* ================================================================== *)
(** ** The parts of a document *)
(* ================================================================== *)

(** The containers the class serves are, by its docstring, bodies and
    cells, and also headers and footers.  A document is a package of
    parts: the main part holds the body with its cells; every header and
    every footer is a part of its own, with an XML tree of its own.  The
    element of a proxy sits in the tree of one part, and that tree is the
    one an absolute XPath expression is evaluated on: the world a method
    sees is the tree of the part of its proxy, together with the random
    source of the process. *)
Record package :=
  Package { parts : list elem; pk_entropy : nat → Z; pk_cursor : nat }.

(** The world as seen from part [i]. *)
Definition part_world (pk : package) (i : nat) : option world :=
  (λ t, World t (pk_entropy pk) (pk_cursor pk)) <$> parts pk !! i.

(** The package once a method has left part [i] in the world [w]. *)
Definition store_part (pk : package) (i : nat) (w : world) : package :=
  Package (<[i := tree w]> (parts pk)) (entropy w) (cursor w).

(** A method called through a proxy of part [i]. *)
Definition in_part {A} (i : nat) (m : M A) (pk : package) : option (A * package) :=
  part_world pk i ≫= λ w, m w ≫= λ r, Some (r.1, store_part pk i r.2).

(* ================================================================== *)
(** ** Vocabulary of the statements *)
(* ================================================================== *)

(** *** Identifiers in the document *)

(** Some element of the tree passes the test. *)
Definition present (q : node_test) (d : elem) : Prop :=
  ∃ e, e ∈ descendant_or_self d ∧ satisfies q e.

Global Instance present_dec q d : Decision (present q d).
Proof.
refine (cast_if (decide (Exists (satisfies q) (descendant_or_self d))));
  unfold present; by rewrite <-Exists_exists.
Defined.

(** The candidate is taken: some [w:numId] element of the document has
    it as value. *)
Definition taken (d : elem) (n : Z) : Prop := present (numId_query n) d.

Global Instance taken_dec d n : Decision (taken d n) := present_dec _ _.

(** The paragraph elements of a document, wherever they sit. *)
Definition doc_paragraphs (d : elem) : list elem :=
  filter (λ e, tag e = "w:p") (descendant_or_self d).

(** A numeral as ['%s' % n] writes it: reading it and writing it again
    gives it back. *)
Definition plain_numeral (s : string) : Prop := str <$> int s = Some s.

(** Every numbering-identifier attribute of the document is such a
    numeral, as in the documents this code writes. *)
Definition plainly_numbered (d : elem) : Prop :=
  Forall (λ e, from_option plain_numeral True (p_numId_attr e)) (doc_paragraphs d).

Global Instance plainly_numbered_dec d : Decision (plainly_numbered d).
Proof.
apply Forall_dec. intros e. destruct (p_numId_attr e); cbn; unfold plain_numeral; apply _.
Defined.

(** *** The random source *)

(** The integer the [k]-th call of [random.randint(0, 999999)] gives. *)
Definition candidate (w : world) (k : nat) : Z :=
  (0 + entropy w k `mod` (999999 - 0 + 1))%Z.

(** The world after one draw. *)
Definition advance (w : world) : world :=
  World (tree w) (entropy w) (S (cursor w)).

(** *** Containers and what they leave in the tree *)

(** The container's element is in the tree. *)
Definition live (w : world) (self : BlockItemContainer) : Prop :=
  is_Some (elem_at (tree w) (_element self)).

(** The block items of a container element: its paragraph and table
    children, in document order. *)
Definition block_items (e : elem) : list elem :=
  filter (λ c, tag c = "w:p" ∨ tag c = "w:tbl") (children e).

(** The paragraph element [add_paragraph(text, style)] leaves behind. *)
Definition built_p (txt : string) (style : option string) : elem :=
  from_option p_set_style id style
    ((if decide (txt = "") then id else p_add_run txt) new_p).

(** The paragraph element a list group leaves behind for a new item. *)
Definition built_item (n level : Z) (txt : string) (style : option string) : elem :=
  p_set_numId n (p_set_level level (built_p txt style)).

(** The widths of the columns of a table, added up. *)
Definition total_width (tbl : elem) : Z :=
  foldr Z.add 0%Z (omap id (tbl_col_widths tbl)).

(** *** Allocating and attaching in turn *)

(** One allocation followed at once by the attachment of the id to a new
    paragraph: the id is asked of one container, a list group is made for
    it on a container and populated once. *)
Record step :=
  { alloc_on : BlockItemContainer;
    attach_to : BlockItemContainer;
    item_text : string;
    item_style : option string;
    item_level : Z }.

(** The steps of a plan run one after the other; the ids given out, in
    the order of the calls. *)
Fixpoint allocate_and_attach (fuel : nat) (plan : list step) : M (list Z) :=
  match plan with
  | [] => ret []
  | s :: plan' =>
      let* n := generate_numId fuel (alloc_on s) in
      let* group := ListParagraph_init (attach_to s) n (item_style s)
                      (Some (item_level s)) in
      let* _ := ListParagraph_add_item group (item_text s) (item_style s) in
      let* rest := allocate_and_attach fuel plan' in
      ret (n :: rest)
  end.

(** *** A small document to run the code on *)

(** A paragraph of the list with identifier [n]. *)
Definition numbered_p (n : Z) : elem := p_set_numId n new_p.

(** A table cell holding one empty paragraph. *)
Definition demo_cell : elem :=
  Elem "w:tc" ∅ "" [new_p].

(** A body of five paragraphs with the numbering identifiers
    [1, None, 2, 1, None], followed by a table of one cell. *)
Definition demo_doc : elem :=
  Elem "w:document" ∅ ""
    [Elem "w:body" ∅ ""
       [numbered_p 1; new_p; numbered_p 2; numbered_p 1; new_p;
        Elem "w:tbl" ∅ "" [Elem "w:tr" ∅ "" [demo_cell]]]].

(** The container of the body and the container of the cell. *)
Definition body : BlockItemContainer := {| _element := [0]; _parent := [] |}.
Definition cell : BlockItemContainer :=
  {| _element := [0; 5; 0; 0]; _parent := [0; 5] |}.

(** A random source that gives the listed draws, then zeros. *)
Definition draws (l : list Z) : nat → Z := λ i, default 0%Z (l !! i).
Definition demo_world (l : list Z) : world := World demo_doc (draws l) 0.

(** Two allocations: one asked of the cell, one of the body, each
    attached to a new paragraph of the cell. *)
Definition demo_plan : list step :=
  [ {| alloc_on := cell; attach_to := cell; item_text := "first";
       item_style := Some "ListBullet"; item_level := 0 |};
    {| alloc_on := body; attach_to := cell; item_text := "";
       item_style := None; item_level := 1 |} ].

(** A document in which every integer the sampling range holds is the
    numbering identifier of some paragraph. *)
Definition full_doc : elem :=
  Elem "w:document" ∅ ""
    [Elem "w:body" ∅ "" (numbered_p <$> seqZ 0 1000000)].

(** A random source that keeps giving the same raw draw. *)
Definition stuck_world (d : elem) (r : Z) : world := World d (λ _, r) 0.

(** *** Identifiers written otherwise *)

(** A paragraph whose numbering identifier is written [s] in the tree. *)
Definition written_p (s : string) : elem :=
  Elem "w:p" ∅ ""
    [Elem "w:pPr" ∅ ""
       [Elem "w:numPr" ∅ "" [Elem "w:numId" (<["w:val" := s]> ∅) "" []]]].

(** A document whose one paragraph has the numbering identifier 7,
    written with leading zeros. *)
Definition padded_doc : elem :=
  Elem "w:document" ∅ "" [Elem "w:body" ∅ "" [written_p "007"]].

(** One allocation asked of the body and attached to a new paragraph of
    the body. *)
Definition body_plan : list step :=
  [ {| alloc_on := body; attach_to := body; item_text := "item";
       item_style := None; item_level := 0 |} ].

(** A document in which every integer the sampling range holds is the
    numbering identifier of some paragraph, the identifier 5 written
    with a leading zero. *)
Definition padded_full_doc : elem :=
  Elem "w:document" ∅ ""
    [Elem "w:body" ∅ ""
       (written_p "05" :: (numbered_p <$> seqZ 0 5 ++ seqZ 6 999994))].

(** *** A document of two parts *)

(** A header part holding one paragraph, and the container of the
    header. *)
Definition demo_header : elem := Elem "w:hdr" ∅ "" [new_p].
Definition header : BlockItemContainer := {| _element := []; _parent := [] |}.

(** The demo document as main part, with the header part. *)
Definition demo_package (l : list Z) : package :=
  Package [demo_doc; demo_header] (draws l) 0.

(** *** Appending several blocks *)

(** One call that appends a block to a container. *)
Inductive block_call :=
  | AddParagraph (txt : string) (style : option string)
  | AddTable (rows cols : nat) (width : Z).

(** The call made through a container; the handle of the element behind
    the proxy it returns. *)
Definition call_block (self : BlockItemContainer) (c : block_call) : M path :=
  match c with
  | AddParagraph txt style =>
      let* p := add_paragraph self txt style in ret (_p p)
  | AddTable rows cols width =>
      let* t := add_table self rows cols width in ret (_tbl t)
  end.

(** The element the call leaves behind. *)
Definition built_block (c : block_call) : elem :=
  match c with
  | AddParagraph txt style => built_p txt style
  | AddTable rows cols width => new_tbl rows cols width
  end.

(* ################################################################## *)
(** * Part II: what the code guarantees *)
(* ################################################################## *)

(* ================================================================== *)
(** ** Facts about the tree *)
(* ================================================================== *)

Section tree_facts.
Implicit Types (e d c : elem) (p q : path) (f g : elem → elem).

Lemma elem_at_app e p q :
  elem_at e (p ++ q) = elem_at e p ≫= λ c, elem_at c q.
Proof.
  revert e. induction p as [|i p IH]; intros e; simpl; [done|].
  destruct (children e !! i) as [c|]; simpl; [apply IH|done].
Qed.

Lemma elem_at_snoc e p i :
  elem_at e (p ++ [i]) = elem_at e p ≫= λ c, children c !! i.
Proof.
  rewrite elem_at_app. destruct (elem_at e p) as [c|]; simpl; [|done].
  by destruct (children c !! i).
Qed.

Lemma alter_at_app f p q e :
  alter_at f (p ++ q) e = alter_at (alter_at f q) p e.
Proof.
  revert e. induction p as [|i p IH]; intros e; simpl; [done|].
  f_equal. apply list_alter_ext; auto.
Qed.

Lemma alter_at_compose f g p e :
  alter_at g p (alter_at f p e) = alter_at (g ∘ f) p e.
Proof.
  revert e. induction p as [|i p IH]; intros e; simpl; [done|].
  f_equal. rewrite list_alter_alter_eq. apply list_alter_ext; [|done].
  intros x _. apply IH.
Qed.

Lemma alter_at_ext f g p e :
  (∀ x, elem_at e p = Some x → f x = g x) →
  alter_at f p e = alter_at g p e.
Proof.
  revert e. induction p as [|i p IH]; intros e Hfg; simpl; [by apply Hfg|].
  f_equal. apply list_alter_ext; [|done].
  intros c Hc. apply IH. intros x Hx. apply Hfg. simpl. by rewrite Hc.
Qed.

Lemma elem_at_alter_at f p e :
  elem_at (alter_at f p e) p = f <$> elem_at e p.
Proof.
  revert e. induction p as [|i p IH]; intros e; simpl; [done|].
  rewrite list_lookup_alter_eq.
  destruct (children e !! i) as [c|]; simpl; [apply IH|done].
Qed.

(** A change of a child just appended is the same as appending the
    changed child. *)
Lemma alter_at_new_child f k p e x :
  elem_at e p = Some x →
  alter_at f (p ++ [length (children x)]) (alter_at (append k) p e)
  = alter_at (append (f k)) p e.
Proof.
  intros Hx. rewrite alter_at_app, alter_at_compose.
  apply alter_at_ext. intros y Hy. assert (y = x) as -> by congruence.
  unfold append; simpl. f_equal.
  replace (length (children x)) with (length (children x) + 0) by lia.
  by rewrite alter_app_r.
Qed.

End tree_facts.

(* ================================================================== *)
(** ** Facts about the query *)
(* ================================================================== *)

Section query_facts.
Implicit Types (e d c : elem) (p : path) (f : elem → elem) (q : node_test).

Lemma descendant_or_self_unfold e :
  descendant_or_self e = e :: (children e ≫= descendant_or_self).
Proof. by destruct e. Qed.

Lemma present_unfold q e :
  present q e ↔ satisfies q e ∨ ∃ c, c ∈ children e ∧ present q c.
Proof.
  unfold present. rewrite descendant_or_self_unfold. split.
  - intros (x & Hx & Hq). apply elem_of_cons in Hx as [->|Hx]; [by left|].
    apply list_elem_of_bind in Hx as (c & Hxc & Hc). right. eauto.
  - intros [Hq|(c & Hc & x & Hx & Hq)].
    + exists e. split; [apply list_elem_of_here|done].
    + exists x. split; [|done]. apply list_elem_of_further.
      apply list_elem_of_bind. eauto.
Qed.

Lemma present_child q e c : c ∈ children e → present q c → present q e.
Proof. intros ??. apply present_unfold. right. eauto. Qed.

(** An element with another tag than the one tested, and whose children
    hold nothing for the test, holds nothing. *)
Lemma not_present_elem (q : node_test) (t : string) a (s : string) (cs : list elem) :
t ≠ nt_name q → Forall (λ c, ¬ present q c) cs → ¬ present q (Elem t a s cs).
Proof.
intros Ht Hcs [[Hq _]|(c & Hc & Hqc)]%present_unfold; [done|].
rewrite Forall_forall in Hcs. by apply (Hcs c).
Qed.

Lemma xpath_abs_length q d ctx :
  length (xpath_abs d ctx q) = 0 ↔ ¬ present q d.
Proof.
  unfold xpath_abs, present. rewrite length_zero_iff_nil. split.
  - intros Hnil (e & He & Hq).
    assert (e ∈ filter (satisfies q) (descendant_or_self d)) as Hin
      by by apply list_elem_of_filter.
    rewrite Hnil in Hin. by apply not_elem_of_nil in Hin.
  - intros Hno. destruct (filter _ _) as [|e l] eqn:Hf; [done|].
    assert (e ∈ filter (satisfies q) (descendant_or_self d)) as Hin
      by (rewrite Hf; apply list_elem_of_here).
    apply list_elem_of_filter in Hin as [??]. destruct Hno. eauto.
Qed.

(** The query is blind to the context handle. *)
Lemma xpath_abs_context q d ctx ctx' : xpath_abs d ctx q = xpath_abs d ctx' q.
Proof. done. Qed.

(** What the changed element holds, the changed tree holds. *)
Lemma present_alter_at_here q f p d x :
  elem_at d p = Some x → present q (f x) → present q (alter_at f p d).
Proof.
  revert d. induction p as [|i p IH]; intros d; simpl.
  - by intros [= ->].
  - destruct (children d !! i) as [c|] eqn:Hc; simpl; [|done].
    intros Hx Hq. apply present_unfold. right. simpl.
    exists (alter_at f p c). split; [|by apply IH].
    apply list_elem_of_lookup. exists i.
    by rewrite list_lookup_alter_eq, Hc.
Qed.

(** A change that loses nothing at the changed element loses nothing
    in the tree. *)
Lemma present_alter_at_mono q f p d :
  (∀ x, elem_at d p = Some x → present q x → present q (f x)) →
  present q d → present q (alter_at f p d).
Proof.
  revert d. induction p as [|i p IH]; intros d Hf; simpl; [by apply Hf|].
  intros [Hq|(c & Hc & Hqc)]%present_unfold; apply present_unfold; simpl.
  - by left.
  - right. apply list_elem_of_lookup in Hc as [j Hj].
    destruct (decide (i = j)) as [->|Hne].
    + exists (alter_at f p c). split.
      * apply list_elem_of_lookup. exists j.
        by rewrite list_lookup_alter_eq, Hj.
      * apply IH; [|done]. intros x Hx. apply Hf. simpl. by rewrite Hj.
    + exists c. split; [|done]. apply list_elem_of_lookup. exists j.
      by rewrite list_lookup_alter_ne.
Qed.

Lemma present_append q k e : present q (append k e) ↔ present q e ∨ present q k.
Proof.
  rewrite !(present_unfold q (append k e)), (present_unfold q e).
  unfold append, satisfies; simpl. split.
  - intros [?|(c & [Hc| ->%list_elem_of_singleton]%elem_of_app & ?)]; eauto.
  - intros [[?|(c & ? & ?)]|?]; [by left|right..].
    + exists c. split; [apply elem_of_app|]; eauto.
    + exists k. split; [apply elem_of_app; right; apply list_elem_of_here|done].
Qed.

(** [with_child] leaves the changed child among the children. *)
Lemma with_child_elem_of front t f e :
  ∃ c0, tag c0 = t ∧ f c0 ∈ children (with_child front t f e).
Proof.
  unfold with_child.
  destruct (list_find _ _) as [[i c]|] eqn:Hfind.
  - apply list_find_Some in Hfind as (Hi & Ht & _). exists c. split; [done|].
    simpl. apply list_elem_of_lookup. exists i.
    by rewrite list_lookup_alter_eq, Hi.
  - exists (blank t). split; [done|]. destruct front; simpl.
    + apply list_elem_of_here.
    + apply elem_of_app. right. apply list_elem_of_here.
Qed.

(** A paragraph whose numbering-identifier was set to [n] holds a
    [w:numId] element with that value. *)
Lemma present_p_set_numId n e : present (numId_query n) (p_set_numId n e).
Proof.
  unfold p_set_numId.
  destruct (with_child_elem_of true "w:pPr"
    (with_child false "w:numPr"
       (with_child false "w:numId" (set_attr "w:val" (str n)))) e)
    as (c0 & _ & H0).
  eapply present_child; [exact H0|].
  destruct (with_child_elem_of false "w:numPr"
    (with_child false "w:numId" (set_attr "w:val" (str n))) c0)
    as (c1 & _ & H1).
  eapply present_child; [exact H1|].
  destruct (with_child_elem_of false "w:numId" (set_attr "w:val" (str n)) c1)
    as (c2 & Ht & H2).
  eapply present_child; [exact H2|].
  apply present_unfold. left. split; simpl; [done|].
  apply lookup_insert_eq.
Qed.
End query_facts.

(* ================================================================== *)
(** ** Facts about numerals *)
(* ================================================================== *)

Lemma int_str n : int (str n) = Some n.
Proof.
  unfold int, str. rewrite NilZero.isi.
  - simpl. f_equal. apply DecimalZ.of_to.
  - destruct n; simpl; try discriminate.
    intros [= H]. by apply (Unsigned.to_uint_nonnil p).
  - destruct n; simpl; try discriminate.
    intros [= H]. by apply (Unsigned.to_uint_nonnil p).
Qed.

Global Instance str_inj : Inj (=) (=) str.
Proof. intros m n H. apply (f_equal int) in H. rewrite !int_str in H. congruence. Qed.

(* ================================================================== *)
(** ** What each method does to the world *)
(* ================================================================== *)

Section method_facts.
Implicit Types (self : BlockItemContainer) (w : world) (x : elem).

Lemma _add_paragraph_run self w x :
  elem_at (tree w) (_element self) = Some x →
  _add_paragraph self w
  = Some ({| _p := _element self ++ [length (children x)]; p_parent := self |},
          with_tree (alter_at (append new_p) (_element self) (tree w)) w).
Proof.
  intros Hx. unfold _add_paragraph, add_p, bind, get_tree, modify_tree, ret.
  by rewrite Hx.
Qed.

Lemma add_paragraph_run self txt style w x :
  elem_at (tree w) (_element self) = Some x →
  add_paragraph self txt style w
  = Some ({| _p := _element self ++ [length (children x)]; p_parent := self |},
          with_tree (alter_at (append (built_p txt style)) (_element self) (tree w)) w).
Proof.
  intros Hx. unfold add_paragraph, bind at 1.
  rewrite (_add_paragraph_run _ _ _ Hx). unfold built_p.
  destruct (decide (txt = "")), style as [s|];
    unfold bind, ret, Paragraph_add_run, Paragraph_set_style, modify_tree,
      with_tree; simpl;
    rewrite ?alter_at_compose, ?(alter_at_new_child _ _ _ _ _ Hx); try done.
Qed.

Lemma add_table_run self rows cols width w x :
  elem_at (tree w) (_element self) = Some x →
  add_table self rows cols width w
  = Some ({| _tbl := _element self ++ [length (children x)]; tbl_parent := self |},
          with_tree (alter_at (append (new_tbl rows cols width))
                       (_element self) (tree w)) w).
Proof.
  intros Hx. unfold add_table, _insert_tbl, bind, get_tree, modify_tree, ret.
  by rewrite Hx.
Qed.
End method_facts.

Lemma add_item_run lp txt style w x :
elem_at (tree w) (_element (lp_parent lp)) = Some x →
ListParagraph_add_item lp txt style w
= Some ({| _p := _element (lp_parent lp) ++ [length (children x)];
           p_parent := lp_parent lp |},
        with_tree (alter_at
                     (append (built_item (numId lp) (default 0%Z (lp_level lp))
                                txt style))
                     (_element (lp_parent lp)) (tree w)) w).
Proof.
intros Hx. unfold ListParagraph_add_item, bind at 1.
rewrite (add_paragraph_run _ _ _ _ _ Hx).
unfold bind, ret, Paragraph_set_level, Paragraph_set_numId, modify_tree,
  with_tree, built_item; simpl.
by rewrite alter_at_compose, (alter_at_new_child _ _ _ _ _ Hx).
Qed.

(* ================================================================== *)
(** ** The allocation loop *)
(* ================================================================== *)

Section loop_facts.
Implicit Types (self : BlockItemContainer) (w : world) (n : Z) (fuel : nat).

Lemma candidate_range w k : (0 ≤ candidate w k ≤ 999999)%Z.
Proof.
unfold candidate. change (999999 - 0 + 1)%Z with 1000000%Z.
pose proof (Z.mod_pos_bound (entropy w k) 1000000). lia.
Qed.

(** One turn of the loop: the draw is given back when it is free, and
    the loop goes on with the next draw when it is taken. *)
Lemma generate_numId_step fuel self w :
generate_numId (S fuel) self w
= if decide (taken (tree w) (candidate w (cursor w)))
  then generate_numId fuel self (advance w)
  else Some (candidate w (cursor w), advance w).
Proof.
cbn [generate_numId]. unfold bind, randint, xpath, ret. cbn [tree entropy cursor].
fold (candidate w (cursor w)). fold (advance w).
pose proof (xpath_abs_length (numId_query (candidate w (cursor w))) (tree w)
              (_element self)) as Hlen.
case_decide as Ht; unfold taken in Ht.
- destruct (Nat.eqb_spec (length (xpath_abs (tree w) (_element self)
             (numId_query (candidate w (cursor w))))) 0) as [H0|H0]; [|done].
  by apply Hlen in H0.
- apply Hlen in Ht. by rewrite Ht.
Qed.

(** What a returning call has done: it looked at some draws, all taken
    but the last, gave the last one back and left the tree alone. *)
Lemma generate_numId_returns fuel self w n w' :
generate_numId fuel self w = Some (n, w') →
∃ k, k < fuel ∧ n = candidate w (cursor w + k)
     ∧ w' = World (tree w) (entropy w) (S (cursor w + k))
     ∧ ¬ taken (tree w) n
     ∧ ∀ j, j < k → taken (tree w) (candidate w (cursor w + j)).
Proof.
revert w. induction fuel as [|fuel IH]; intros w; [done|].
rewrite generate_numId_step. case_decide as Ht.
- intros (k & Hk & -> & -> & Hfree & Hbefore)%IH.
  exists (S k). cbn [advance tree entropy cursor candidate] in *.
  replace (cursor w + S k) with (S (cursor w) + k) by lia.
  split_and!; [lia|done..|].
  intros [|j] Hj.
  + by replace (cursor w + 0) with (cursor w) by lia.
  + replace (cursor w + S j) with (S (cursor w) + j) by lia.
    apply Hbefore. lia.
- intros [= <- <-]. exists 0.
  replace (cursor w + 0) with (cursor w) by lia.
  split_and!; [lia|done..|]. intros j Hj. lia.
Qed.

(** The loop returns as soon as the fuel reaches a free draw. *)
Lemma generate_numId_total fuel self w k :
k < fuel → ¬ taken (tree w) (candidate w (cursor w + k)) →
is_Some (generate_numId fuel self w).
Proof.
revert w k. induction fuel as [|fuel IH]; intros w k Hk Hfree; [lia|].
rewrite generate_numId_step. case_decide as Ht; [|done].
destruct k as [|k].
- by replace (cursor w + 0) with (cursor w) in Hfree by lia.
- apply (IH (advance w) k); [lia|]. cbn [advance tree entropy cursor candidate].
  by replace (S (cursor w) + k) with (cursor w + S k) by lia.
Qed.

(** No draw free, no return. *)
Lemma generate_numId_starved fuel self w :
(∀ k, taken (tree w) (candidate w k)) → generate_numId fuel self w = None.
Proof.
revert w. induction fuel as [|fuel IH]; intros w Hall; [done|].
rewrite generate_numId_step. case_decide as Ht; [|by destruct Ht].
by apply IH.
Qed.
End loop_facts.

(* ================================================================== *)
(** ** Paragraphs and the query *)
(* ================================================================== *)

Section paragraph_facts.
Implicit Types (e d c x : elem) (p q : path) (n m : Z).

Lemma descendant_or_self_trans d e x :
e ∈ descendant_or_self d → x ∈ descendant_or_self e → x ∈ descendant_or_self d.
Proof.
revert e x. induction d as [t a s cs IH] using elem_forall_ind. intros e x.
cbn [descendant_or_self]. intros [->|He]%elem_of_cons Hx; [done|].
apply list_elem_of_bind in He as (c & He & Hc). apply list_elem_of_further.
apply list_elem_of_bind. exists c. split; [|done].
rewrite Forall_forall in IH. by apply (IH c Hc e).
Qed.

Lemma find_child_Some t e c :
find_child t e = Some c → c ∈ children e ∧ tag c = t.
Proof.
unfold find_child. destruct (list_find _ _) as [[i y]|] eqn:Hf; [|done].
simpl. intros [= <-]. apply list_find_Some in Hf as (Hi & Ht & _).
split; [by eapply list_elem_of_lookup_2|done].
Qed.

Lemma elem_of_child_descendant e c : c ∈ children e → c ∈ descendant_or_self e.
Proof.
intros Hc. rewrite descendant_or_self_unfold. apply list_elem_of_further.
apply list_elem_of_bind. exists c. split; [|done].
rewrite descendant_or_self_unfold. apply list_elem_of_here.
Qed.

(** The numbering-identifier attribute of a paragraph of the document is
    the value of a [w:numId] element of the document. *)
Lemma p_numId_attr_present d e s :
e ∈ descendant_or_self d → p_numId_attr e = Some s →
present (NodeTest "w:numId" "w:val" s) d.
Proof.
intros He. unfold p_numId_attr.
destruct (find_child "w:pPr" e) as [pPr|] eqn:H1; [|done]. simpl.
destruct (find_child "w:numPr" pPr) as [numPr|] eqn:H2; [|done]. simpl.
destruct (find_child "w:numId" numPr) as [nid|] eqn:H3; [|done]. simpl.
intros Hs.
apply find_child_Some in H1 as [H1 _], H2 as [H2 _], H3 as [H3 Ht].
exists nid. split; [|by split].
eapply descendant_or_self_trans; [exact He|].
eapply descendant_or_self_trans; [by apply elem_of_child_descendant|].
eapply descendant_or_self_trans; [by apply elem_of_child_descendant|].
by apply elem_of_child_descendant.
Qed.

Lemma free_no_paragraph d n e :
¬ taken d n → e ∈ doc_paragraphs d → p_numId_attr e ≠ Some (str n).
Proof.
intros Hfree [_ He]%list_elem_of_filter Hs. apply Hfree.
by eapply p_numId_attr_present.
Qed.

(** Where the identifiers are written as plain numerals, a free id is
    the numbering identifier no paragraph reads. *)
Lemma free_no_paragraph_numId d n e :
plainly_numbered d → ¬ taken d n → e ∈ doc_paragraphs d → p_numId e ≠ Some n.
Proof.
intros Hplain Hfree He Hn. unfold plainly_numbered in Hplain.
rewrite Forall_forall in Hplain. specialize (Hplain e He).
unfold p_numId in Hn. destruct (p_numId_attr e) as [s|] eqn:Hs; [|done].
cbn in Hplain, Hn. unfold plain_numeral in Hplain. rewrite Hn in Hplain.
injection Hplain as <-. by apply (free_no_paragraph d n e).
Qed.

(** Appending a block keeps every handle alive. *)
Lemma live_alter_at_append k q d p :
is_Some (elem_at d p) → is_Some (elem_at (alter_at (append k) q d) p).
Proof.
revert d p. induction q as [|j q IH]; intros d [|i p]; simpl; try done.
- destruct (children d !! i) as [c|] eqn:Hc; simpl; [|by intros [? [=]]].
  by rewrite (lookup_app_l_Some _ _ _ _ Hc).
- destruct (children d !! i) as [c|] eqn:Hc; simpl; [|by intros [? [=]]].
  rewrite list_lookup_alter. case_decide as Hij.
  + subst j. rewrite Hc. simpl. apply IH.
  + by rewrite Hc.
Qed.

(** The item a list group appends: its identifier becomes taken, no
    identifier stops being taken, no handle dies. *)
Lemma attach_effect d (c : path) x n level txt style :
elem_at d c = Some x →
let d' := alter_at (append (built_item n level txt style)) c d in
taken d' n ∧ (∀ m, taken d m → taken d' m)
∧ ∀ p, is_Some (elem_at d p) → is_Some (elem_at d' p).
Proof.
intros Hx d'. split_and!.
- eapply present_alter_at_here; [done|]. apply present_append. right.
  apply present_p_set_numId.
- intros m Hm. apply present_alter_at_mono; [|done].
  intros y _ Hy. apply present_append. by left.
- intros p. apply live_alter_at_append.
Qed.
End paragraph_facts.

(* ================================================================== *)
(** ** Numbering identifiers are fresh *)
(* ================================================================== *)

Lemma allocate_and_attach_fresh fuel plan w ids w' :
Forall (λ s, live w (attach_to s)) plan →
allocate_and_attach fuel plan w = Some (ids, w') →
length ids = length plan ∧ NoDup ids ∧ ∀ n, n ∈ ids → ¬ taken (tree w) n.
Proof.
revert w ids w'. induction plan as [|s plan IH]; intros w ids w' Hlive.
- intros [= <- <-]. split_and!; [done|constructor|].
  by intros n ?%not_elem_of_nil.
- apply Forall_cons in Hlive as [[x Hx] Hlive].
  cbn [allocate_and_attach]. unfold bind at 1.
  destruct (generate_numId fuel (alloc_on s) w) as [[n w1]|] eqn:Hgen; [|done].
  apply generate_numId_returns in Hgen as (k & _ & _ & Hw1 & Hfree & _).
  assert (tree w1 = tree w) as Htree by by rewrite Hw1.
  unfold ListParagraph_init, bind at 1, ret at 1. unfold bind at 1.
  rewrite (add_item_run _ _ _ _ x) by (by rewrite Htree). cbn [numId lp_level lp_parent default].
  rewrite Htree.
  destruct (attach_effect (tree w) (_element (attach_to s)) x n (item_level s)
              (item_text s) (item_style s) Hx) as (Hnow & Hmono & Hkeep).
  set (d' := alter_at _ _ _) in *. unfold bind at 1.
  destruct (allocate_and_attach fuel plan (with_tree d' w1)) as [[rest w2]|] eqn:Hrest;
    [|done].
  intros [= <- <-]. apply IH in Hrest as (Hlen & Hnodup & Hrestfree).
  + split_and!.
    * simpl. by rewrite Hlen.
    * constructor; [|done]. intros Hin. by apply (Hrestfree n Hin).
    * intros m [->|Hm]%elem_of_cons; [done|].
      intros Htaken. by apply (Hrestfree m Hm), Hmono.
  + eapply Forall_impl; [exact Hlive|]. intros s' Hs'. by apply Hkeep.
Qed.

(** X11.  What [generate_numId] gives back is, when it is given out, the
    value of no [w:numId] element of the tree that holds the container's
    element: the decimal numeral of the integer is the numbering-identifier
    attribute of no paragraph of the tree, and where the identifiers of
    the tree are written as plain numerals, it is the [numId] no paragraph
    reads.  Hence, when each of N calls made through containers of one
    tree is followed at once by the attachment of its result to a new
    paragraph of that tree, the N results are pairwise distinct and none
    of them was the value of a [w:numId] element at the start.  A call
    returns as soon as one of the draws within its fuel is free. *)
Theorem generate_numId_fresh :
(∀ fuel self w n w',
   generate_numId fuel self w = Some (n, w') →
   ¬ taken (tree w) n
   ∧ (∀ e, e ∈ doc_paragraphs (tree w) → p_numId_attr e ≠ Some (str n))
   ∧ (plainly_numbered (tree w) →
      ∀ e, e ∈ doc_paragraphs (tree w) → p_numId e ≠ Some n))
∧ (∀ fuel plan w ids w',
     Forall (λ s, live w (attach_to s)) plan →
     allocate_and_attach fuel plan w = Some (ids, w') →
     length ids = length plan ∧ NoDup ids
     ∧ ∀ n, n ∈ ids →
         ¬ taken (tree w) n
         ∧ (∀ e, e ∈ doc_paragraphs (tree w) → p_numId_attr e ≠ Some (str n))
         ∧ (plainly_numbered (tree w) →
            ∀ e, e ∈ doc_paragraphs (tree w) → p_numId e ≠ Some n))
∧ (∀ fuel self w k,
     k < fuel → ¬ taken (tree w) (candidate w (cursor w + k)) →
     is_Some (generate_numId fuel self w)).
Proof.
split; [|split].
- intros fuel self w n w' (k & _ & _ & _ & Hfree & _)%generate_numId_returns.
  split; [done|]. split.
  + intros e. by apply free_no_paragraph.
  + intros Hplain e. by apply free_no_paragraph_numId.
- intros fuel plan w ids w' Hlive Hrun.
  destruct (allocate_and_attach_fresh _ _ _ _ _ Hlive Hrun) as (? & ? & Hfree).
  split; [done|]. split; [done|]. intros n Hn. split; [by apply Hfree|]. split.
  + intros e. apply free_no_paragraph. by apply Hfree.
  + intros Hplain e. apply free_no_paragraph_numId; [done|]. by apply Hfree.
- intros fuel self w k. apply generate_numId_total.
Qed.

(** On the demo document: the cell is given 7 after the taken draws 1
    and 2; two allocations in a row, each attached to a new paragraph of
    the cell, give 7 and then, the next draw being 7 again, 3. *)
Lemma generate_numId_fresh_witness :
(generate_numId 3 cell (demo_world [1; 2; 7]%Z)
 = Some (7%Z, World demo_doc (draws [1; 2; 7]%Z) 3)
 ∧ ¬ taken demo_doc 7
 ∧ plainly_numbered demo_doc
 ∧ ∀ e, e ∈ doc_paragraphs demo_doc → p_numId e ≠ Some 7%Z)
∧ (Forall (λ s, live (demo_world [1; 2; 7; 7; 3]%Z) (attach_to s)) demo_plan
   ∧ fst <$> allocate_and_attach 3 demo_plan (demo_world [1; 2; 7; 7; 3]%Z)
     = Some [7; 3]%Z
   ∧ NoDup [7; 3]%Z
   ∧ ∀ n, n ∈ [7; 3]%Z → ¬ taken demo_doc n)
∧ is_Some (generate_numId 3 cell (demo_world [1; 2; 7]%Z)).
Proof.
assert (generate_numId 3 cell (demo_world [1; 2; 7]%Z)
        = Some (7%Z, World demo_doc (draws [1; 2; 7]%Z) 3)) as Hrun
  by (vm_compute; reflexivity).
assert (plainly_numbered demo_doc) as Hplain
  by (apply (bool_decide_unpack (plainly_numbered _)); vm_compute; exact I).
assert (Forall (λ s, live (demo_world [1; 2; 7; 7; 3]%Z) (attach_to s)) demo_plan)
  as Hlive by (repeat constructor; vm_compute; eauto).
split; [|split].
- destruct (proj1 generate_numId_fresh _ _ _ _ _ Hrun) as (Hfree & _ & Htyped).
  split; [exact Hrun|]. split; [exact Hfree|]. split; [exact Hplain|].
  exact (Htyped Hplain).
- destruct (allocate_and_attach 3 demo_plan (demo_world [1; 2; 7; 7; 3]%Z))
    as [[ids w']|] eqn:Hseq; [|by vm_compute in Hseq].
  assert (ids = [7; 3]%Z) as Hids by (vm_compute in Hseq; congruence).
  destruct (proj1 (proj2 generate_numId_fresh) _ _ _ _ _ Hlive Hseq)
    as (_ & Hnodup & Hfree).
  rewrite Hids in Hnodup, Hfree. split; [exact Hlive|].
  split; [by rewrite Hids|]. split; [exact Hnodup|].
  intros n Hn. exact (proj1 (Hfree n Hn)).
- refine (proj2 (proj2 generate_numId_fresh) 3 cell (demo_world [1; 2; 7]%Z) 2 _ _).
  + lia.
  + apply (bool_decide_unpack (¬ taken _ _)). vm_compute. exact I.
Defined.

(* ================================================================== *)
(** ** An identifier in use is given out *)
(* ================================================================== *)

Section written_facts.
Implicit Types (e d : elem) (s : string) (n m : Z).

Lemma numbered_p_written n : numbered_p n = written_p (str n).
Proof. reflexivity. Qed.

Lemma p_numId_attr_written_p s : p_numId_attr (written_p s) = Some s.
Proof. reflexivity. Qed.

Lemma p_numId_written_p s : p_numId (written_p s) = int s.
Proof. reflexivity. Qed.

(** The one identifier a paragraph holds is the one written in it. *)
Lemma taken_written_p s m : taken (written_p s) m → s = str m.
Proof.
unfold taken, written_p.
intros [[? _]|(c1 & ->%list_elem_of_singleton & H)]%present_unfold; [done|].
apply present_unfold in H as [[? _]|(c2 & ->%list_elem_of_singleton & H)]; [done|].
apply present_unfold in H as [[? _]|(c3 & ->%list_elem_of_singleton & H)]; [done|].
apply present_unfold in H as [[_ Hval]|(c4 & []%not_elem_of_nil & _)].
cbn in Hval. rewrite lookup_insert_eq in Hval. congruence.
Qed.

(** The paragraph is the only paragraph element in itself. *)
Lemma written_p_only_paragraph s e :
e ∈ descendant_or_self (written_p s) → tag e = "w:p" → e = written_p s.
Proof.
cbn. rewrite !elem_of_cons, elem_of_nil.
intros [->|[->|[->|[->|[]]]]]; done.
Qed.

(** A child of the body is a paragraph of the document. *)
Lemma body_child_doc_paragraph a s b t cs e :
e ∈ cs → tag e = "w:p" →
e ∈ doc_paragraphs (Elem a ∅ s [Elem b ∅ t cs]).
Proof.
intros He Ht. apply list_elem_of_filter. split; [done|].
apply (descendant_or_self_trans _ (Elem b ∅ t cs)).
- apply elem_of_child_descendant, list_elem_of_here.
- by apply elem_of_child_descendant.
Qed.
End written_facts.

(** C1.  [generate_numId] gives out an identifier that is in use.  The
    body of the document holds one paragraph, of the list 7, whose
    identifier is written [007]: the paragraph reads 7 as its numbering
    identifier.  The pattern compares the text [7] with the text [007],
    finds no hit, and the call returns 7 at the first draw; attached to
    a new paragraph, the identifier is then read by two paragraphs that
    were never meant to share a list. *)
Theorem generate_numId_returns_id_in_use :
written_p "007" ∈ doc_paragraphs padded_doc
∧ p_numId (written_p "007") = Some 7%Z
∧ generate_numId 1 body (World padded_doc (draws [7]%Z) 0)
  = Some (7%Z, World padded_doc (draws [7]%Z) 1)
∧ ∃ w',
    allocate_and_attach 1 body_plan (World padded_doc (draws [7]%Z) 0)
    = Some ([7%Z], w')
    ∧ length (filter (λ e, p_numId e = Some 7%Z) (doc_paragraphs (tree w'))) = 2.
Proof.
split; [by apply body_child_doc_paragraph; [apply list_elem_of_here|]|].
split; [vm_compute; reflexivity|]. split; [vm_compute; reflexivity|].
eexists. split; vm_compute; reflexivity.
Qed.

(* ================================================================== *)
(** ** The loop need not return *)
(* ================================================================== *)

Lemma full_doc_taken n : (0 ≤ n ≤ 999999)%Z → taken full_doc n.
Proof.
intros Hn. unfold taken, full_doc.
eapply present_child; [apply list_elem_of_here|].
eapply present_child; [|apply present_p_set_numId].
cbn [children]. apply list_elem_of_fmap. exists n. split; [done|].
apply elem_of_seqZ. lia.
Qed.

Lemma full_doc_paragraphs e :
e ∈ doc_paragraphs full_doc → ∃ n, e = numbered_p n.
Proof.
intros [Ht He]%list_elem_of_filter. unfold full_doc in He.
rewrite descendant_or_self_unfold in He.
apply elem_of_cons in He as [->|He]; [done|]. cbn [children] in He.
apply list_elem_of_bind in He as (b & He & ->%list_elem_of_singleton).
rewrite descendant_or_self_unfold in He.
apply elem_of_cons in He as [->|He]; [done|]. cbn [children] in He.
apply list_elem_of_bind in He as (c & He & (n & -> & _)%list_elem_of_fmap).
exists n. rewrite numbered_p_written in *. by apply written_p_only_paragraph.
Qed.

Lemma full_doc_plainly_numbered : plainly_numbered full_doc.
Proof.
apply Forall_forall. intros e [n ->]%full_doc_paragraphs.
rewrite numbered_p_written, p_numId_attr_written_p. cbn.
unfold plain_numeral. by rewrite int_str.
Qed.

Lemma full_doc_numbered n :
(0 ≤ n ≤ 999999)%Z → ∃ e, e ∈ doc_paragraphs full_doc ∧ p_numId e = Some n.
Proof.
intros Hn. exists (numbered_p n). split.
- apply body_child_doc_paragraph; [|done].
  apply list_elem_of_fmap. exists n. split; [done|]. apply elem_of_seqZ. lia.
- rewrite numbered_p_written, p_numId_written_p. apply int_str.
Qed.

(** In a plainly numbered document the identifier a paragraph reads is
    taken. *)
Lemma plain_numId_taken d e n :
plainly_numbered d → e ∈ doc_paragraphs d → p_numId e = Some n → taken d n.
Proof.
intros Hplain He Hn. unfold plainly_numbered in Hplain.
rewrite Forall_forall in Hplain. specialize (Hplain e He).
unfold p_numId in Hn. destruct (p_numId_attr e) as [s|] eqn:Hs; [|done].
cbn in Hplain, Hn. unfold plain_numeral in Hplain. rewrite Hn in Hplain.
injection Hplain as <-. apply list_elem_of_filter in He as [_ He].
by eapply p_numId_attr_present.
Qed.



Lemma padded_full_doc_free : ¬ taken padded_full_doc 5.
Proof.
unfold taken, padded_full_doc.
apply not_present_elem; [done|]. constructor; [|constructor].
apply not_present_elem; [done|]. constructor.
- by intros ?%taken_written_p.
- apply Forall_fmap, Forall_forall. intros n Hn.
  change (¬ taken (numbered_p n) 5). rewrite numbered_p_written. intros ?%taken_written_p%(inj str).
  subst n. apply elem_of_app in Hn as [Hn|Hn]; apply elem_of_seqZ in Hn; lia.
Qed.


(* ================================================================== *)
(** ** Allocation reserves nothing *)
(* ================================================================== *)

(** C8.  [generate_numId] has no effect on the document: the tree after
    the call is the tree before it (only the random source has moved
    on), so the id it gave out is as free as before and the next call
    gives it out again whenever the random source draws it again.  Such
    states and draws exist: on the demo document, with draws 7 and 7,
    two calls in a row both return 7. *)
Theorem generate_numId_reserves_nothing :
(∀ fuel self w n w',
   generate_numId fuel self w = Some (n, w') →
   tree w' = tree w
   ∧ ∀ fuel' other,
       candidate w' (cursor w') = n →
       generate_numId (S fuel') other w' = Some (n, advance w'))
∧ ∃ fuel self w n w1 w2,
    generate_numId fuel self w = Some (n, w1)
    ∧ generate_numId fuel self w1 = Some (n, w2).
Proof.
split.
- intros fuel self w n w' (k & _ & _ & -> & Hfree & _)%generate_numId_returns.
  split; [done|]. intros fuel' other Hagain.
  rewrite generate_numId_step, Hagain. cbn [tree] in *. by case_decide.
- exists 1, body, (demo_world [7; 7]%Z), 7%Z.
  exists (World demo_doc (draws [7; 7]%Z) 1), (World demo_doc (draws [7; 7]%Z) 2).
  split; vm_compute; reflexivity.
Qed.

(** On the demo document: the body is given 7, the tree is as before,
    and the cell, drawing 7 next, is given 7 too. *)
Lemma generate_numId_reserves_nothing_witness :
tree (World demo_doc (draws [1; 7; 7]%Z) 2) = tree (demo_world [1; 7; 7]%Z)
∧ generate_numId 1 cell (World demo_doc (draws [1; 7; 7]%Z) 2)
  = Some (7%Z, World demo_doc (draws [1; 7; 7]%Z) 3).
Proof.
assert (generate_numId 2 body (demo_world [1; 7; 7]%Z)
        = Some (7%Z, World demo_doc (draws [1; 7; 7]%Z) 2)) as Hrun
  by (vm_compute; reflexivity).
destruct (proj1 generate_numId_reserves_nothing _ _ _ _ _ Hrun) as [Hsame Hagain].
split; [exact Hsame|]. apply (Hagain 0 cell). vm_compute. reflexivity.
Defined.

(* ================================================================== *)
(** ** The check is as wide as the tree *)
(* ================================================================== *)

Lemma generate_numId_any_container fuel self other w :
generate_numId fuel self w = generate_numId fuel other w.
Proof.
revert w. induction fuel as [|fuel IH]; intros w; [done|].
rewrite !generate_numId_step. case_decide; [apply IH|done].
Qed.

Lemma present_descendant q d e :
e ∈ descendant_or_self d → present q e → present q d.
Proof.
intros He (x & Hx & Hq). exists x. split; [|done].
by eapply descendant_or_self_trans.
Qed.

Lemma elem_at_descendant d p x : elem_at d p = Some x → x ∈ descendant_or_self d.
Proof.
revert d. induction p as [|i p IH]; intros d; simpl.
- intros [= ->]. rewrite descendant_or_self_unfold. apply list_elem_of_here.
- destruct (children d !! i) as [c|] eqn:Hc; simpl; [|done]. intros Hx.
  eapply descendant_or_self_trans; [|by apply IH].
  apply elem_of_child_descendant. by eapply list_elem_of_lookup_2.
Qed.

Section part_facts.
Implicit Types (pk : package) (w : world) (i : nat).

Lemma part_world_parts pk i w :
part_world pk i = Some w →
parts pk !! i = Some (tree w)
∧ entropy w = pk_entropy pk ∧ cursor w = pk_cursor pk.
Proof.
unfold part_world. destruct (parts pk !! i) as [t|]; [|done].
by intros [= <-].
Qed.

(** Putting back what was taken out changes nothing. *)
Lemma store_part_same pk i w : part_world pk i = Some w → store_part pk i w = pk.
Proof.
intros (Ht & He & Hc)%part_world_parts. unfold store_part.
rewrite (list_insert_id _ _ _ Ht), He, Hc. by destruct pk.
Qed.

Lemma part_world_store pk i w v :
part_world pk i = Some w → part_world (store_part pk i v) i = Some v.
Proof.
intros (Ht & _ & _)%part_world_parts. unfold part_world, store_part. cbn.
rewrite list_lookup_insert_eq by by eapply lookup_lt_Some. by destruct v.
Qed.

(** A method that leaves the tree alone leaves every part alone. *)
Lemma store_part_parts pk i w v :
part_world pk i = Some w → tree v = tree w → parts (store_part pk i v) = parts pk.
Proof.
intros (Ht & _ & _)%part_world_parts Hv. unfold store_part. cbn.
rewrite Hv. by apply list_insert_id.
Qed.

Lemma in_part_run {A} (m : M A) pk i w :
part_world pk i = Some w →
in_part i m pk = (λ r, (r.1, store_part pk i r.2)) <$> m w.
Proof. intros Hw. unfold in_part. rewrite Hw. cbn. by destruct (m w). Qed.
End part_facts.

(** C10, as the code has it.  The existence check of [generate_numId] is
    wide as the tree that holds the container's element, not scoped to
    the container: the pattern starts with [//], so it is evaluated from
    the root of that tree.  Two containers of one tree, whatever elements
    they wrap, run the identical check and get the identical outcome; the
    hits are those of the whole tree; the id a container gets is the
    value of no [w:numId] element of the entire tree, hence of none under
    the element of either container (a cell, say); a draw that is free in
    the tree is given back at once, and one that is taken anywhere in the
    tree, be it only under the other container, is passed over.  The
    trees of the other parts of the document are not looked at: what they
    hold changes nothing. *)
Theorem generate_numId_tree_wide pk i w self other x y :
part_world pk i = Some w →
elem_at (tree w) (_element self) = Some x →
elem_at (tree w) (_element other) = Some y →
(∀ fuel,
   in_part i (generate_numId fuel self) pk = in_part i (generate_numId fuel other) pk)
∧ (∀ numId,
     in_part i (xpath (_element self) (numId_query numId)) pk
     = Some (filter (satisfies (numId_query numId)) (descendant_or_self (tree w)), pk))
∧ (∀ fuel n pk',
     in_part i (generate_numId fuel self) pk = Some (n, pk') →
     ¬ taken (tree w) n ∧ ¬ taken x n ∧ ¬ taken y n ∧ parts pk' = parts pk)
∧ (∀ fuel,
     ¬ taken (tree w) (candidate w (cursor w)) →
     in_part i (generate_numId (S fuel) self) pk
     = Some (candidate w (cursor w), store_part pk i (advance w)))
∧ (∀ fuel,
     taken y (candidate w (cursor w)) →
     in_part i (generate_numId (S fuel) self) pk
     = in_part i (generate_numId fuel self) (store_part pk i (advance w)))
∧ (∀ fuel pk2,
     part_world pk2 i = Some w →
     fst <$> in_part i (generate_numId fuel self) pk2
     = fst <$> in_part i (generate_numId fuel self) pk).
Proof.
intros Hw Hx Hy. split_and!.
- intros fuel. rewrite !(in_part_run _ _ _ _ Hw).
  by rewrite (generate_numId_any_container fuel self other).
- intros numId. rewrite (in_part_run _ _ _ _ Hw). unfold xpath, xpath_abs. cbn.
  by rewrite (store_part_same _ _ _ Hw).
- intros fuel n pk'. rewrite (in_part_run _ _ _ _ Hw).
  destruct (generate_numId fuel self w) as [[m w']|] eqn:Hgen; [|done].
  cbn. intros [= -> <-].
  apply generate_numId_returns in Hgen as (k & _ & _ & -> & Hfree & _).
  split_and!; [done| | |by apply (store_part_parts _ _ w)].
  + intros Hq. apply Hfree. eapply present_descendant; [|exact Hq].
    by eapply elem_at_descendant.
  + intros Hq. apply Hfree. eapply present_descendant; [|exact Hq].
    by eapply elem_at_descendant.
- intros fuel Hfree. rewrite (in_part_run _ _ _ _ Hw), generate_numId_step.
  by rewrite decide_False.
- intros fuel Htaken.
  rewrite (in_part_run _ _ _ _ Hw), generate_numId_step, decide_True.
  + rewrite (in_part_run _ _ _ (advance w)) by by eapply part_world_store.
    destruct (generate_numId fuel self (advance w)) as [[m w']|]; [|done].
    cbn. unfold store_part. cbn. by rewrite list_insert_insert_eq.
  + eapply present_descendant; [|exact Htaken]. by eapply elem_at_descendant.
- intros fuel pk2 Hw2. rewrite (in_part_run _ _ _ _ Hw), (in_part_run _ _ _ _ Hw2).
  by destruct (generate_numId fuel self w) as [[m w']|].
Qed.

(** On the demo document with its header: the id 1 is taken in the body
    but not under the cell; the call made through the cell passes over
    the draw 1 all the same and settles on 7, which is nowhere in the
    tree of the body. *)
Lemma generate_numId_tree_wide_witness :
(part_world (demo_package [1; 7]%Z) 0 = Some (demo_world [1; 7]%Z)
 ∧ elem_at demo_doc (_element cell) = Some demo_cell
 ∧ is_Some (elem_at demo_doc (_element body))
 ∧ ¬ taken demo_cell 1 ∧ taken demo_doc 1)
∧ in_part 0 (generate_numId 2 cell) (demo_package [1; 7]%Z)
  = in_part 0 (generate_numId 2 body) (demo_package [1; 7]%Z)
∧ in_part 0 (generate_numId 2 cell) (demo_package [1; 7]%Z)
  = Some (7%Z, Package [demo_doc; demo_header] (draws [1; 7]%Z) 2)
∧ ¬ taken demo_doc 7 ∧ ¬ taken demo_cell 7.
Proof.
assert (taken demo_doc 1) as Htaken
  by (apply (bool_decide_unpack (taken _ _)); vm_compute; exact I).
assert (in_part 0 (generate_numId 2 cell) (demo_package [1; 7]%Z)
        = Some (7%Z, Package [demo_doc; demo_header] (draws [1; 7]%Z) 2)) as Hrun
  by (vm_compute; reflexivity).
destruct (elem_at demo_doc (_element body)) as [b|] eqn:Hb; [|by vm_compute in Hb].
destruct (generate_numId_tree_wide (demo_package [1; 7]%Z) 0 (demo_world [1; 7]%Z)
            cell body demo_cell b eq_refl eq_refl Hb)
  as (Hsame & _ & Hfree & _).
destruct (Hfree _ _ _ Hrun) as (Hdoc & Hcell & _).
split; [|split; [apply Hsame|split; [exact Hrun|split; [exact Hdoc|exact Hcell]]]].
split; [reflexivity|]. split; [reflexivity|]. split; [by eexists|].
split; [|exact Htaken].
apply (bool_decide_unpack (¬ taken _ _)). vm_compute. exact I.
Defined.

(** C10 as stated fails beyond the tree of the container's part: the
    first paragraph of the body carries the identifier 1, and the call
    made through the container of the header, whose tree is another one,
    returns 1 at its first draw. *)
Lemma generate_numId_other_part_counterexample :
in_part 1 (generate_numId 1 header) (demo_package [1]%Z)
= Some (1%Z, Package [demo_doc; demo_header] (draws [1]%Z) 1)
∧ taken demo_doc 1
∧ numbered_p 1 ∈ doc_paragraphs demo_doc
∧ p_numId (numbered_p 1) = Some 1%Z.
Proof.
split; [vm_compute; reflexivity|].
split; [apply (bool_decide_unpack (taken _ _)); vm_compute; exact I|].
split; [|vm_compute; reflexivity].
apply list_elem_of_filter. split; [done|].
apply (descendant_or_self_trans _ (Elem "w:body" ∅ ""
          [numbered_p 1; new_p; numbered_p 2; numbered_p 1; new_p;
           Elem "w:tbl" ∅ "" [Elem "w:tr" ∅ "" [demo_cell]]])).
- apply elem_of_child_descendant, list_elem_of_here.
- apply elem_of_child_descendant, list_elem_of_here.
Qed.

(* ================================================================== *)
(** ** Appending blocks *)
(* ================================================================== *)

Section append_facts.
Implicit Types (self : BlockItemContainer) (w : world) (x k : elem).

Lemma findall_append t k x :
findall t (append k x)
= findall t x ++ (if decide (tag k = t) then [(length (children x), k)] else []).
Proof.
unfold findall, append. cbn [children]. rewrite imap_app, filter_app. f_equal.
cbn. by rewrite Nat.add_0_r.
Qed.

Lemma child_handles_run t self w :
child_handles t (_element self) w
= Some ((λ ic, _element self ++ [ic.1])
          <$> default [] (findall t <$> elem_at (tree w) (_element self)), w).
Proof. done. Qed.

Lemma paragraphs_run self w :
paragraphs self w
= Some ((λ ic, {| _p := _element self ++ [ic.1]; p_parent := self |})
          <$> default [] (findall "w:p" <$> elem_at (tree w) (_element self)), w).
Proof.
unfold paragraphs, p_lst, bind. rewrite child_handles_run. unfold ret.
by rewrite <-list_fmap_compose.
Qed.

Lemma tables_run self w :
tables self w
= Some ((λ ic, {| _tbl := _element self ++ [ic.1]; tbl_parent := self |})
          <$> default [] (findall "w:tbl" <$> elem_at (tree w) (_element self)), w).
Proof.
unfold tables, tbl_lst, bind. rewrite child_handles_run. unfold ret.
by rewrite <-list_fmap_compose.
Qed.

Lemma paragraphs_live self w x :
resolve w (_element self) = Some x →
paragraphs self w
= Some ((λ ic, {| _p := _element self ++ [ic.1]; p_parent := self |})
          <$> findall "w:p" x, w).
Proof. intros Hx. rewrite paragraphs_run. unfold resolve in Hx. by rewrite Hx. Qed.

Lemma tables_live self w x :
resolve w (_element self) = Some x →
tables self w
= Some ((λ ic, {| _tbl := _element self ++ [ic.1]; tbl_parent := self |})
          <$> findall "w:tbl" x, w).
Proof. intros Hx. rewrite tables_run. unfold resolve in Hx. by rewrite Hx. Qed.

Lemma tag_built_p txt style : tag (built_p txt style) = "w:p".
Proof. unfold built_p. by destruct (decide (txt = "")), style. Qed.

Lemma tag_new_tbl rows cols width : tag (new_tbl rows cols width) = "w:tbl".
Proof. done. Qed.

(** What appending one block [k] through [self] does to the store. *)
Lemma append_block_effect self w x k :
elem_at (tree w) (_element self) = Some x →
let w' := with_tree (alter_at (append k) (_element self) (tree w)) w in
resolve w' (_element self) = Some (append k x)
∧ resolve w' (_element self ++ [length (children x)]) = Some k
∧ ∀ i c, children x !! i = Some c → resolve w' (_element self ++ [i]) = Some c.
Proof.
intros Hx w'. unfold resolve. cbn [w' with_tree tree].
assert (elem_at (alter_at (append k) (_element self) (tree w)) (_element self)
        = Some (append k x)) as Hx' by by rewrite elem_at_alter_at, Hx.
split_and!; [done|..].
- rewrite elem_at_snoc, Hx'. cbn. apply list_lookup_middle. done.
- intros i c Hc. rewrite elem_at_snoc, Hx'. cbn. by apply lookup_app_l_Some.
Qed.

Lemma block_items_append k x :
tag k = "w:p" ∨ tag k = "w:tbl" →
block_items (append k x) = block_items x ++ [k].
Proof.
intros Hk. unfold block_items, append. cbn [children].
by rewrite filter_app, filter_cons_True, filter_nil.
Qed.
End append_facts.

(** C3.  Block items are appended at the tail.  For a container whose
    element holds the children [b1..bn], [add_paragraph] leaves the
    children [b1..bn, p] and [add_table] the children [b1..bn, t], where
    [p] and [t] are the elements behind the proxies the calls return; so
    the block-item sequence and the [paragraphs] (or [tables]) view gain
    exactly the new block at the end, and every element that was there
    is behind the same handle, unchanged. *)
Theorem add_block_at_tail self w x :
elem_at (tree w) (_element self) = Some x →
(∀ txt style, ∃ p w' x' ps ts,
   add_paragraph self txt style w = Some (p, w')
   ∧ resolve w' (_element self) = Some x'
   ∧ children x' = children x ++ [built_p txt style]
   ∧ block_items x' = block_items x ++ [built_p txt style]
   ∧ resolve w' (_p p) = Some (built_p txt style)
   ∧ (∀ i c, children x !! i = Some c → resolve w' (_element self ++ [i]) = Some c)
   ∧ paragraphs self w = Some (ps, w)
   ∧ paragraphs self w' = Some (ps ++ [p], w')
   ∧ tables self w = Some (ts, w)
   ∧ tables self w' = Some (ts, w'))
∧ (∀ rows cols width, ∃ t w' x' ts ps,
     add_table self rows cols width w = Some (t, w')
     ∧ resolve w' (_element self) = Some x'
     ∧ children x' = children x ++ [new_tbl rows cols width]
     ∧ block_items x' = block_items x ++ [new_tbl rows cols width]
     ∧ resolve w' (_tbl t) = Some (new_tbl rows cols width)
     ∧ (∀ i c, children x !! i = Some c → resolve w' (_element self ++ [i]) = Some c)
     ∧ tables self w = Some (ts, w)
     ∧ tables self w' = Some (ts ++ [t], w')
     ∧ paragraphs self w = Some (ps, w)
     ∧ paragraphs self w' = Some (ps, w')).
Proof.
intros Hx. split.
- intros txt style.
  destruct (append_block_effect self w x (built_p txt style) Hx) as (Hc & Hnew & Hold).
  eexists _, _, _, _, _. rewrite (add_paragraph_run _ _ _ _ _ Hx).
  split; [done|]. split; [exact Hc|]. split; [done|].
  split; [apply block_items_append; left; apply tag_built_p|].
  split; [exact Hnew|]. split; [exact Hold|].
  rewrite (paragraphs_live _ _ _ Hc), (tables_live _ _ _ Hc).
  rewrite (paragraphs_live _ w x Hx), (tables_live _ w x Hx).
  rewrite !findall_append, tag_built_p. cbn.
  rewrite fmap_app, app_nil_r. done.
- intros rows cols width.
  destruct (append_block_effect self w x (new_tbl rows cols width) Hx)
    as (Hc & Hnew & Hold).
  eexists _, _, _, _, _. rewrite (add_table_run _ _ _ _ _ _ Hx).
  split; [done|]. split; [exact Hc|]. split; [done|].
  split; [apply block_items_append; right; apply tag_new_tbl|].
  split; [exact Hnew|]. split; [exact Hold|].
  rewrite (paragraphs_live _ _ _ Hc), (tables_live _ _ _ Hc).
  rewrite (paragraphs_live _ w x Hx), (tables_live _ w x Hx).
  rewrite !findall_append. cbn.
  rewrite fmap_app, app_nil_r. done.
Qed.

(** On the demo body, which holds five paragraphs and one table. *)
Lemma add_block_at_tail_witness :
elem_at (tree (demo_world [])) (_element body)
= Some (Elem "w:body" ∅ ""
          [numbered_p 1; new_p; numbered_p 2; numbered_p 1; new_p;
           Elem "w:tbl" ∅ "" [Elem "w:tr" ∅ "" [demo_cell]]])
∧ (∃ p w' x' ps ts,
     add_paragraph body "hello" (Some "Quote") (demo_world []) = Some (p, w')
     ∧ resolve w' (_element body) = Some x'
     ∧ length (block_items x') = 7
     ∧ last (block_items x') = Some (built_p "hello" (Some "Quote"))
     ∧ resolve w' (_p p) = Some (built_p "hello" (Some "Quote"))
     ∧ length ps = 5 ∧ length ts = 1
     ∧ paragraphs body w' = Some (ps ++ [p], w')
     ∧ tables body w' = Some (ts, w'))
∧ (∃ t w' ts ps,
     add_table body 2 2 9000 (demo_world []) = Some (t, w')
     ∧ resolve w' (_tbl t) = Some (new_tbl 2 2 9000)
     ∧ length ps = 5 ∧ length ts = 1
     ∧ tables body w' = Some (ts ++ [t], w')
     ∧ paragraphs body w' = Some (ps, w')).
Proof.
pose proof (add_block_at_tail body (demo_world []) _ eq_refl) as [Hp Ht].
split; [reflexivity|]. split.
- destruct (Hp "hello" (Some "Quote"))
    as (p & w' & x' & ps & ts & Hrun & Hx' & Hch & Hb & Hnew & _ & Hps & Hps' & Hts & Hts').
  exists p, w', x', ps, ts. rewrite Hb.
  assert (ps = (fst (default ([], demo_world []) (paragraphs body (demo_world [])))))
    as Hpsv by (by rewrite Hps).
  assert (ts = (fst (default ([], demo_world []) (tables body (demo_world [])))))
    as Htsv by (by rewrite Hts).
  split_and!; try done.
  + by rewrite Hpsv.
  + by rewrite Htsv.
- destruct (Ht 2 2 9000%Z)
    as (t & w' & x' & ts & ps & Hrun & Hx' & Hch & Hb & Hnew & _ & Hts & Hts' & Hps & Hps').
  exists t, w', ts, ps.
  assert (ps = (fst (default ([], demo_world []) (paragraphs body (demo_world [])))))
    as Hpsv by (by rewrite Hps).
  assert (ts = (fst (default ([], demo_world []) (tables body (demo_world [])))))
    as Htsv by (by rewrite Hts).
  split_and!; try done.
  + by rewrite Hpsv.
  + by rewrite Htsv.
Defined.

(* ================================================================== *)
(** ** Text and style of a new paragraph *)
(* ================================================================== *)

Lemma p_runs_built_p txt style :
p_runs (built_p txt style) = if decide (txt = "") then [] else [txt].
Proof.
unfold built_p. destruct (decide (txt = "")), style; try done.
all: by vm_compute.
Qed.

Lemma p_style_built_p txt style : p_style (built_p txt style) = style.
Proof.
unfold built_p. destruct (decide (txt = "")), style as [s|]; try done.
all: unfold p_set_style, id; cbn; apply lookup_insert_eq.
Qed.

(** C4.  [add_paragraph(text, style)] returns a paragraph that, when the
    call returns, carries exactly one run holding [text] if [text] is
    not empty and no run otherwise, and whose style reference is [style]
    if one was given and absent otherwise.  So [add_paragraph()] with no
    argument (text [''], style [None]) gives a paragraph with zero runs
    and no explicit style. *)
Theorem add_paragraph_text_and_style self w x txt style :
elem_at (tree w) (_element self) = Some x →
∃ p w' e,
  add_paragraph self txt style w = Some (p, w')
  ∧ resolve w' (_p p) = Some e
  ∧ (txt ≠ "" → p_runs e = [txt])
  ∧ (txt = "" → p_runs e = [])
  ∧ p_style e = style.
Proof.
intros Hx.
destruct (append_block_effect self w x (built_p txt style) Hx) as (_ & Hnew & _).
eexists _, _, _. rewrite (add_paragraph_run _ _ _ _ _ Hx).
split; [done|]. split; [exact Hnew|].
rewrite p_runs_built_p, p_style_built_p. split_and!; [| |done]; intros ?; by case_decide.
Qed.

(** On the demo cell: [add_paragraph("hello", styleX)] and
    [add_paragraph()]. *)
Lemma add_paragraph_text_and_style_witness :
is_Some (elem_at (tree (demo_world [])) (_element cell))
∧ (∃ p w' e,
     add_paragraph cell "hello" (Some "styleX") (demo_world []) = Some (p, w')
     ∧ resolve w' (_p p) = Some e
     ∧ p_runs e = ["hello"] ∧ p_style e = Some "styleX")
∧ (∃ p w' e,
     add_paragraph cell "" None (demo_world []) = Some (p, w')
     ∧ resolve w' (_p p) = Some e
     ∧ p_runs e = [] ∧ p_style e = None).
Proof.
split; [by eexists|]. split.
- destruct (add_paragraph_text_and_style cell (demo_world []) demo_cell
              "hello" (Some "styleX") eq_refl)
    as (p & w' & e & Hrun & He & Hruns & _ & Hstyle).
  exists p, w', e. split_and!; [done..| |done]. by apply Hruns.
- destruct (add_paragraph_text_and_style cell (demo_world []) demo_cell
              "" None eq_refl)
    as (p & w' & e & Hrun & He & _ & Hruns & Hstyle).
  exists p, w', e. split_and!; [done..| |done]. by apply Hruns.
Defined.

(* ================================================================== *)
(** ** Reading twice *)
(* ================================================================== *)

(** C9.  Reads are idempotent: [paragraphs] read twice in a row, and
    [tables] read twice in a row, give the same proxies in the same
    order both times, and leave the world as it was; the same holds when
    the other view is read in between. *)
Theorem reads_are_idempotent self w :
∃ ps ts,
  (let* a := paragraphs self in let* b := paragraphs self in ret (a, b)) w
  = Some ((ps, ps), w)
  ∧ (let* a := tables self in let* b := tables self in ret (a, b)) w
    = Some ((ts, ts), w)
  ∧ (let* a := paragraphs self in
     let* t := tables self in
     let* b := paragraphs self in
     let* t' := tables self in ret (a, t, b, t')) w
    = Some ((ps, ts, ps, ts), w)
  ∧ paragraphs self w = Some (ps, w)
  ∧ tables self w = Some (ts, w).
Proof.
eexists _, _. unfold bind, ret.
repeat (rewrite ?paragraphs_run, ?tables_run; cbn beta iota).
split_and!; reflexivity.
Qed.

(* ================================================================== *)
(** ** Table geometry *)
(* ================================================================== *)

Section table_facts.
Implicit Types (e k : elem) (t : string).

Lemma findall_snd_aux {A} (P : A → Prop) `{!∀ a, Decision (P a)} (g : nat → nat) (l : list A) :
(filter (λ ic, P ic.2) (imap (λ i, pair (g i)) l)).*2 = filter P l.
Proof.
revert g. induction l as [|a l IH]; intros g; [done|].
rewrite imap_cons, !filter_cons. cbn [snd].
case_decide; cbn; [f_equal|]; apply (IH (g ∘ S)).
Qed.

Lemma findall_snd t e : (findall t e).*2 = filter (λ c, tag c = t) (children e).
Proof. exact (findall_snd_aux (λ c, tag c = t) id (children e)). Qed.

Lemma filter_replicate_True {A} (P : A → Prop) `{!∀ a, Decision (P a)} n a :
P a → filter P (replicate n a) = replicate n a.
Proof. intros Ha. induction n as [|n IH]; [done|].
change (replicate (S n) a) with (a :: replicate n a). by rewrite filter_cons_True, IH.
Qed.

Lemma filter_replicate_False {A} (P : A → Prop) `{!∀ a, Decision (P a)} n a :
¬ P a → filter P (replicate n a) = [].
Proof. intros Ha. induction n as [|n IH]; [done|].
change (replicate (S n) a) with (a :: replicate n a). by rewrite filter_cons_False.
Qed.

Lemma filter_fmap_True {A B} (P : B → Prop) `{!∀ b, Decision (P b)} (f : A → B)
    (l : list A) :
(∀ a, P (f a)) → filter P (f <$> l) = f <$> l.
Proof.
intros Hf. induction l as [|a l IH]; [done|].
rewrite fmap_cons, filter_cons_True by apply Hf. by rewrite IH.
Qed.

Lemma length_col_widths cols width : length (col_widths cols width) = cols.
Proof.
destruct cols as [|k]; [done|]. cbn [col_widths].
rewrite length_app, length_replicate. cbn. lia.
Qed.

(** The modelled distribution hands out the whole width. *)
Lemma sum_col_widths cols width :
cols ≠ 0 → foldr Z.add 0%Z (col_widths cols width) = width.
Proof.
destruct cols as [|k]; [done|]. intros _. cbn [col_widths].
generalize (width / Z.of_nat (S k))%Z. intros q.
rewrite foldr_app. cbn [foldr].
assert (∀ z, foldr Z.add z (replicate k q) = (Z.of_nat k * q + z)%Z) as ->.
{ intros z. induction k as [|k IH]; [cbn; lia|].
  cbn [replicate foldr]. rewrite IH. lia. }
lia.
Qed.

Lemma tbl_rows_new_tbl rows cols width :
tbl_rows (new_tbl rows cols width)
= replicate rows (Elem "w:tr" ∅ "" (new_tc <$> col_widths cols width)).
Proof.
unfold tbl_rows. rewrite findall_snd. cbn [new_tbl children].
rewrite !filter_cons_False by done. by apply filter_replicate_True.
Qed.

Lemma tr_cells_new_tr (ws : list Z) :
tr_cells (Elem "w:tr" ∅ "" (new_tc <$> ws)) = new_tc <$> ws.
Proof. unfold tr_cells. rewrite findall_snd. by apply filter_fmap_True. Qed.

Lemma tbl_columns_new_tbl rows cols width :
tbl_columns (new_tbl rows cols width) = new_gridCol <$> col_widths cols width.
Proof.
unfold tbl_columns.
assert (find_child "w:tblGrid" (new_tbl rows cols width)
        = Some (Elem "w:tblGrid" ∅ "" (new_gridCol <$> col_widths cols width)))
  as ->.
{ unfold find_child. cbn. by rewrite decide_False, decide_True by done. }
etransitivity; [apply findall_snd|]. by apply filter_fmap_True.
Qed.

Lemma tbl_col_widths_new_tbl rows cols width :
tbl_col_widths (new_tbl rows cols width) = Some <$> col_widths cols width.
Proof.
unfold tbl_col_widths. rewrite tbl_columns_new_tbl.
change map with (@fmap list _). rewrite <-list_fmap_compose.
apply list_fmap_ext. intros i z _. cbn. rewrite lookup_insert_eq. cbn.
apply int_str.
Qed.

Lemma total_width_new_tbl rows cols width :
total_width (new_tbl rows cols width) = foldr Z.add 0%Z (col_widths cols width).
Proof.
unfold total_width. rewrite tbl_col_widths_new_tbl. f_equal.
induction (col_widths cols width) as [|z l IH]; [done|]. cbn. by rewrite IH.
Qed.
End table_facts.




(* ================================================================== *)
(** ** New lists *)
(* ================================================================== *)

Lemma add_list_run fuel self style level w g w' :
add_list fuel self style level w = Some (g, w') →
generate_numId fuel self w = Some (numId g, w')
∧ lp_parent g = self ∧ lp_style g = style ∧ lp_level g = Some level.
Proof.
unfold add_list, bind, ListParagraph_init, ret.
destruct (generate_numId fuel self w) as [[n w1]|]; [|done].
by intros [= <- <-].
Qed.


(* ================================================================== *)
(** ** Lists *)
(* ================================================================== *)

Section list_facts.
Implicit Types (self : BlockItemContainer) (w : world).

(** A comprehension over reads leaves the world as it was. *)
Lemma mapM_read {A B} (m : A → M B) (f : A → B) (l : list A) w :
(∀ a, m a w = Some (f a, w)) → mapM m l w = Some (f <$> l, w).
Proof.
intros Hm. induction l as [|a l IH]; [done|].
cbn [mapM]. unfold bind. rewrite Hm, IH. done.
Qed.

Lemma Forall_sublist {A} (P : A → Prop) (l k : list A) :
l `sublist_of` k → Forall P k → Forall P l.
Proof.
induction 1 as [|x l k Hlk IH|x l k Hlk IH]; [done|..];
  intros [Hx Hk]%Forall_cons; [apply Forall_cons|]; auto.
Qed.

Lemma StronglySorted_sublist {A} (R : relation A) (l k : list A) :
l `sublist_of` k → StronglySorted R k → StronglySorted R l.
Proof.
induction 1 as [|x l k Hlk IH|x l k Hlk IH]; [done|..];
  intros [Hx Hk]%StronglySorted_cons; [|by apply IH].
apply StronglySorted_cons. split; [|by apply IH]. by eapply Forall_sublist.
Qed.

Lemma StronglySorted_seq i n : StronglySorted lt (seq i n).
Proof.
revert i. induction n as [|n IH]; intros i; [constructor|].
cbn [seq]. apply StronglySorted_cons. split; [|apply IH].
apply Forall_forall. intros j Hj%elem_of_seq. lia.
Qed.

(** The positions [findall] gives are in document order. *)
Lemma findall_fst_sorted t e : StronglySorted lt (findall t e).*1.
Proof.
apply (StronglySorted_sublist _ _ (seq 0 (length (children e)))).
- unfold findall.
  assert ((imap pair (children e)).*1 = seq 0 (length (children e))) as <-.
  { rewrite fmap_imap.
    change (imap (λ n, fst ∘ pair n) (children e))
      with (imap (λ (j : nat) (_ : elem), id j) (children e)).
    by rewrite imap_seq_0, list_fmap_id. }
  apply fmap_sublist, sublist_filter.
- apply StronglySorted_seq.
Qed.

Lemma Paragraph_numId_run p w :
Paragraph_numId p w = Some (elem_at (tree w) (_p p) ≫= p_numId, w).
Proof. done. Qed.

Lemma lists_run self w ps ids :
paragraphs self w = Some (ps, w) →
mapM Paragraph_numId ps w = Some (ids, w) →
lists self w
= Some ((λ n, {| lp_parent := self; numId := n; lp_style := None; lp_level := None |})
          <$> elements (list_to_set (omap id ids) : gset Z), w).
Proof.
intros Hps Hids. unfold lists, bind. rewrite Hps, Hids.
by apply mapM_read.
Qed.

Lemma items_run g w ps ids :
paragraphs (lp_parent g) w = Some (ps, w) →
mapM Paragraph_numId ps w = Some (ids, w) →
ListParagraph_items g w
= Some (omap (λ pi, if decide (pi.2 = Some (numId g)) then Some pi.1 else None)
             (zip ps ids), w).
Proof. intros Hps Hids. unfold ListParagraph_items, bind. by rewrite Hps, Hids. Qed.
End list_facts.

(** C2.  For a container whose paragraphs carry the numbering
    identifiers [1, None, 2, 1, None], [lists] gives exactly one group
    per distinct identifier: two groups, for the ids 1 and 2, in some
    order.  The group for id 1 holds exactly the 1st and the 4th
    paragraph (and the group for id 2 the 3rd).  The [paragraphs] view,
    read after [lists], is still the same five paragraphs, in document
    order: their positions among the children of the container's element
    increase. *)
Theorem lists_groups_by_numId self w ps :
paragraphs self w = Some (ps, w) →
mapM Paragraph_numId ps w = Some ([Some 1; None; Some 2; Some 1; None]%Z, w) →
∃ gs p1 p2 p3 p4 p5,
  lists self w = Some (gs, w)
  ∧ numId <$> gs ≡ₚ [1; 2]%Z
  ∧ Forall (λ g, lp_parent g = self) gs
  ∧ ps = [p1; p2; p3; p4; p5]
  ∧ (∀ g, g ∈ gs → numId g = 1%Z → ListParagraph_items g w = Some ([p1; p4], w))
  ∧ (∀ g, g ∈ gs → numId g = 2%Z → ListParagraph_items g w = Some ([p3], w))
  ∧ (let* _ := lists self in paragraphs self) w = Some ([p1; p2; p3; p4; p5], w)
  ∧ ∃ i1 i2 i3 i4 i5,
      i1 < i2 ∧ i2 < i3 ∧ i3 < i4 ∧ i4 < i5
      ∧ _p <$> ps = (λ i, _element self ++ [i]) <$> [i1; i2; i3; i4; i5].
Proof.
intros Hps Hids.
assert (length ps = 5) as Hlen.
{ pose proof Hids as Hids'.
  rewrite (mapM_read _ _ _ _ (λ p, Paragraph_numId_run p w)) in Hids'.
  injection Hids' as Hids'. apply (f_equal length) in Hids'.
  by rewrite length_fmap in Hids'. }
destruct ps as [|p1 [|p2 [|p3 [|p4 [|p5 [|p6 ps]]]]]]; try done.
pose proof (lists_run _ _ _ _ Hps Hids) as Hlists.
eexists _, p1, p2, p3, p4, p5. split; [exact Hlists|].
assert (elements (list_to_set (omap id [Some 1; None; Some 2; Some 1; None]) : gset Z)
        = [2; 1])%Z as -> by (by vm_compute).
cbn [fmap list_fmap numId].
split; [apply Permutation_swap|]. split; [by repeat constructor|].
split; [done|]. split_and!.
- intros g [->|[->|[]%not_elem_of_nil]%elem_of_cons]%elem_of_cons; [done|].
  intros _. by erewrite items_run by (exact Hps || exact Hids).
- intros g [->|[->|[]%not_elem_of_nil]%elem_of_cons]%elem_of_cons; [|done].
  intros _. by erewrite items_run by (exact Hps || exact Hids).
- unfold bind. by rewrite Hlists.
- rewrite paragraphs_run in Hps. injection Hps as Hps.
  pose proof (findall_fst_sorted "w:p"
                (default (blank "") (elem_at (tree w) (_element self)))) as Hsorted.
  destruct (elem_at (tree w) (_element self)) as [x|]; [|done].
  cbn [default from_option id fmap option_fmap option_map] in Hps, Hsorted.
  destruct (findall "w:p" x) as [|[i1 c1] [|[i2 c2] [|[i3 c3] [|[i4 c4] [|[i5 c5] l]]]]];
    try done.
  destruct l; [|done]. cbn in Hps. injection Hps as <- <- <- <- <-.
  exists i1, i2, i3, i4, i5. cbn in Hsorted.
  apply StronglySorted_cons in Hsorted as [H1 Hsorted].
  apply StronglySorted_cons in Hsorted as [H2 Hsorted].
  apply StronglySorted_cons in Hsorted as [H3 Hsorted].
  apply StronglySorted_cons in Hsorted as [H4 _].
  apply Forall_cons in H1 as [? _], H2 as [? _], H3 as [? _], H4 as [? _].
  done.
Qed.

(** The demo body carries the identifiers [1, None, 2, 1, None]. *)
Lemma lists_groups_by_numId_witness :
(paragraphs body (demo_world [])
 = Some ((λ i, {| _p := [0; i]; p_parent := body |}) <$> [0; 1; 2; 3; 4],
         demo_world [])
 ∧ mapM Paragraph_numId
     ((λ i, {| _p := [0; i]; p_parent := body |}) <$> [0; 1; 2; 3; 4])
     (demo_world [])
   = Some ([Some 1; None; Some 2; Some 1; None]%Z, demo_world []))
∧ ∃ gs,
    lists body (demo_world []) = Some (gs, demo_world [])
    ∧ numId <$> gs ≡ₚ [1; 2]%Z
    ∧ (∀ g, g ∈ gs → numId g = 1%Z →
         ListParagraph_items g (demo_world [])
         = Some ([ {| _p := [0; 0]; p_parent := body |};
                   {| _p := [0; 3]; p_parent := body |} ], demo_world []))
    ∧ (let* _ := lists body in paragraphs body) (demo_world [])
      = Some ((λ i, {| _p := [0; i]; p_parent := body |}) <$> [0; 1; 2; 3; 4],
              demo_world []).
Proof.
assert (paragraphs body (demo_world [])
        = Some ((λ i, {| _p := [0; i]; p_parent := body |}) <$> [0; 1; 2; 3; 4],
                demo_world [])) as Hps by (vm_compute; reflexivity).
assert (mapM Paragraph_numId
          ((λ i, {| _p := [0; i]; p_parent := body |}) <$> [0; 1; 2; 3; 4])
          (demo_world [])
        = Some ([Some 1; None; Some 2; Some 1; None]%Z, demo_world [])) as Hids
  by (vm_compute; reflexivity).
split; [by split|].
destruct (lists_groups_by_numId body (demo_world []) _ Hps Hids)
  as (gs & p1 & p2 & p3 & p4 & p5 & Hlists & Hperm & _ & Heq & H1 & _ & Hview & _).
injection Heq as <- <- <- <- <-.
exists gs. split_and!; done.
Defined.

(* ================================================================== *)
(** ** Further properties *)
(* ================================================================== *)

(** X1.  A returning [generate_numId] gives back the first free draw: an
    integer from 0 to 999999 that is the [k]-th draw after the ones
    already consumed, for some [k] within the fuel, every earlier draw
    being taken; the random source has moved on by [k + 1] draws and the
    tree is the same. *)
Theorem generate_numId_first_free_draw fuel self w n w' :
generate_numId fuel self w = Some (n, w') →
(0 ≤ n ≤ 999999)%Z
∧ ∃ k, k < fuel
    ∧ n = candidate w (cursor w + k)
    ∧ ¬ taken (tree w) n
    ∧ (∀ j, j < k → taken (tree w) (candidate w (cursor w + j)))
    ∧ cursor w' = S (cursor w + k)
    ∧ entropy w' = entropy w
    ∧ tree w' = tree w.
Proof.
intros (k & Hk & -> & -> & Hfree & Hbefore)%generate_numId_returns.
split; [apply candidate_range|]. exists k. by split_and!.
Qed.

(** The cell of the demo document is given the third draw, 7. *)
Lemma generate_numId_first_free_draw_witness :
generate_numId 5 cell (demo_world [1; 2; 7]%Z)
= Some (7%Z, World demo_doc (draws [1; 2; 7]%Z) 3)
∧ (0 ≤ 7 ≤ 999999)%Z
∧ ∃ k, k < 5
    ∧ 7%Z = candidate (demo_world [1; 2; 7]%Z) (0 + k)
    ∧ ¬ taken demo_doc 7
    ∧ (∀ j, j < k → taken demo_doc (candidate (demo_world [1; 2; 7]%Z) (0 + j)))
    ∧ 3 = S (0 + k)
    ∧ draws [1; 2; 7]%Z = draws [1; 2; 7]%Z
    ∧ demo_doc = demo_doc.
Proof.
assert (generate_numId 5 cell (demo_world [1; 2; 7]%Z)
        = Some (7%Z, World demo_doc (draws [1; 2; 7]%Z) 3)) as Hrun
  by (vm_compute; reflexivity).
split; [exact Hrun|].
exact (generate_numId_first_free_draw 5 cell (demo_world [1; 2; 7]%Z) 7%Z
         (World demo_doc (draws [1; 2; 7]%Z) 3) Hrun).
Defined.

(** X2.  For every container, [lists] gives one group per distinct
    numbering identifier of its paragraphs: the ids of the groups have
    no repetition, an integer is the id of a group exactly when some
    paragraph of the container carries it, every group has the container
    as parent and neither style nor level, and the world is left as it
    was. *)
Theorem lists_one_group_per_id self w :
∃ gs ps ids,
  paragraphs self w = Some (ps, w)
  ∧ mapM Paragraph_numId ps w = Some (ids, w)
  ∧ lists self w = Some (gs, w)
  ∧ NoDup (numId <$> gs)
  ∧ (∀ n, n ∈ numId <$> gs ↔ Some n ∈ ids)
  ∧ Forall (λ g, lp_parent g = self ∧ lp_style g = None ∧ lp_level g = None) gs.
Proof.
destruct (paragraphs self w) as [[ps w1]|] eqn:Hps; [|by rewrite paragraphs_run in Hps].
assert (w1 = w) as -> by (rewrite paragraphs_run in Hps; congruence).
pose proof (mapM_read _ _ ps w (λ p, Paragraph_numId_run p w)) as Hids.
eexists _, ps, _. split; [done|]. split; [exact Hids|].
split; [exact (lists_run _ _ _ _ Hps Hids)|].
assert (∀ l : list Z,
          numId <$> ((λ n, {| lp_parent := self; numId := n; lp_style := None;
                               lp_level := None |}) <$> l) = l) as ->.
{ intros l. induction l as [|n l IH]; [done|]. cbn. by rewrite IH. }
split_and!.
- apply NoDup_elements.
- intros n. rewrite elem_of_elements, elem_of_list_to_set, list_elem_of_omap.
  split; [|intros Hn; by exists (Some n)].
  intros (x & Hx & Hn). unfold id in Hn. by subst x.
- apply Forall_fmap, Forall_forall. by intros n _.
Qed.

(* ================================================================== *)
(** ** When the allocation loop returns *)
(* ================================================================== *)

(** More fuel does not change what a returning call gives. *)
Lemma generate_numId_more_fuel fuel fuel' self w r :
generate_numId fuel self w = Some r → fuel ≤ fuel' →
generate_numId fuel' self w = Some r.
Proof.
revert fuel' w. induction fuel as [|fuel IH]; intros fuel' w; [done|].
destruct fuel' as [|fuel']; [lia|]. rewrite !generate_numId_step.
case_decide; [|done]. intros Hrun Hle. apply IH; [done|lia].
Qed.

(** X3.  [generate_numId] returns exactly when the random source has a
    free draw ahead: some number of loop turns brings the call back if
    and only if one of the draws to come is the value of no [w:numId]
    element of the document.  The number of turns allowed beyond that
    changes neither the id nor the state the call comes back with. *)
Theorem generate_numId_returns_iff_free_draw self w :
((∃ fuel, is_Some (generate_numId fuel self w))
 ↔ ∃ k, ¬ taken (tree w) (candidate w (cursor w + k)))
∧ ∀ fuel fuel' r,
    generate_numId fuel self w = Some r → fuel ≤ fuel' →
    generate_numId fuel' self w = Some r.
Proof.
split; [split|].
- intros [fuel [[n w'] Hrun]].
  apply generate_numId_returns in Hrun as (k & _ & -> & _ & Hfree & _). eauto.
- intros [k Hfree]. exists (S k). by apply (generate_numId_total _ _ _ k); [lia|].
- intros fuel fuel' r. apply generate_numId_more_fuel.
Qed.

(** On the demo document with the draws 1, 2, 7: three turns bring the
    cell's call back with 7, and so do ten. *)
Lemma generate_numId_returns_iff_free_draw_witness :
(generate_numId 3 cell (demo_world [1; 2; 7]%Z)
 = Some (7%Z, World demo_doc (draws [1; 2; 7]%Z) 3) ∧ 3 ≤ 10)
∧ generate_numId 10 cell (demo_world [1; 2; 7]%Z)
  = Some (7%Z, World demo_doc (draws [1; 2; 7]%Z) 3)
∧ ∃ k, ¬ taken (tree (demo_world [1; 2; 7]%Z))
           (candidate (demo_world [1; 2; 7]%Z) (cursor (demo_world [1; 2; 7]%Z) + k)).
Proof.
assert (generate_numId 3 cell (demo_world [1; 2; 7]%Z)
        = Some (7%Z, World demo_doc (draws [1; 2; 7]%Z) 3)) as Hrun
  by (vm_compute; reflexivity).
destruct (generate_numId_returns_iff_free_draw cell (demo_world [1; 2; 7]%Z))
  as [Hiff Hmore].
split; [split; [exact Hrun|lia]|]. split.
- apply (Hmore 3 10 _ Hrun). lia.
- apply Hiff. exists 3. rewrite Hrun. by eexists.
Defined.

(* ================================================================== *)
(** ** The views, element by element *)
(* ================================================================== *)

Section view_facts.
Implicit Types (e d c x y k : elem) (p q : path) (t : string).

Lemma elem_of_findall t e i c :
(i, c) ∈ findall t e ↔ children e !! i = Some c ∧ tag c = t.
Proof.
unfold findall. rewrite list_elem_of_filter, elem_of_lookup_imap. cbn. split.
- intros (Ht & j & y & [= -> ->] & Hj). done.
- intros [Hi Ht]. split; [done|]. by exists i, c.
Qed.

Lemma elem_of_findall_fst t e i :
i ∈ (findall t e).*1 ↔ ∃ c, children e !! i = Some c ∧ tag c = t.
Proof.
rewrite list_elem_of_fmap. split.
- intros ([j c] & -> & Hic%elem_of_findall). by exists c.
- intros (c & Hc). exists (i, c). split; [done|]. by apply elem_of_findall.
Qed.
End view_facts.

(** X7.  The views are in document order and complete.  For a container
    whose element is in the tree, [paragraphs] gives one proxy for each
    [w:p] child of the element and [tables] one for each [w:tbl] child,
    each proxy with the container as parent, by increasing position
    among the children; a child is in at most one of the two views, and
    elements further down (the paragraphs of a cell of a table, say) are
    in neither. *)
Theorem views_in_document_order self w x :
elem_at (tree w) (_element self) = Some x →
∃ pidx tidx,
  paragraphs self w
  = Some ((λ i, {| _p := _element self ++ [i]; p_parent := self |}) <$> pidx, w)
  ∧ tables self w
    = Some ((λ i, {| _tbl := _element self ++ [i]; tbl_parent := self |}) <$> tidx, w)
  ∧ StronglySorted lt pidx ∧ StronglySorted lt tidx
  ∧ (∀ i, i ∈ pidx ↔ ∃ c, children x !! i = Some c ∧ tag c = "w:p")
  ∧ (∀ i, i ∈ tidx ↔ ∃ c, children x !! i = Some c ∧ tag c = "w:tbl")
  ∧ (∀ i, i ∈ pidx → i ∉ tidx).
Proof.
intros Hx. exists (findall "w:p" x).*1, (findall "w:tbl" x).*1.
rewrite (paragraphs_live _ _ _ Hx), (tables_live _ _ _ Hx).
rewrite <-!list_fmap_compose.
split; [done|]. split; [done|].
split; [apply findall_fst_sorted|]. split; [apply findall_fst_sorted|].
split; [apply elem_of_findall_fst|]. split; [apply elem_of_findall_fst|].
intros i (c & Hc & Ht)%elem_of_findall_fst (c' & Hc' & Ht')%elem_of_findall_fst.
congruence.
Qed.

(** The demo body: paragraphs at the positions 0 to 4, the table at 5;
    the paragraph inside the cell of the table is not in the view. *)
Lemma views_in_document_order_witness :
elem_at (tree (demo_world [])) (_element body)
= Some (Elem "w:body" ∅ ""
          [numbered_p 1; new_p; numbered_p 2; numbered_p 1; new_p;
           Elem "w:tbl" ∅ "" [Elem "w:tr" ∅ "" [demo_cell]]])
∧ ∃ pidx tidx,
    paragraphs body (demo_world [])
    = Some ((λ i, {| _p := [0] ++ [i]; p_parent := body |}) <$> pidx, demo_world [])
    ∧ tables body (demo_world [])
      = Some ((λ i, {| _tbl := [0] ++ [i]; tbl_parent := body |}) <$> tidx,
              demo_world [])
    ∧ StronglySorted lt pidx ∧ StronglySorted lt tidx
    ∧ (5 ∈ tidx) ∧ (5 ∉ pidx).
Proof.
split; [reflexivity|].
destruct (views_in_document_order body (demo_world []) _ eq_refl)
  as (pidx & tidx & Hps & Hts & Hsp & Hst & Hp & Ht & Hdisj).
exists pidx, tidx. split_and!; try done.
- apply Ht. by eexists.
- intros H5. by apply (Hdisj 5 H5), Ht; eexists.
Defined.

(* ================================================================== *)
(** ** What [lists] reads *)
(* ================================================================== *)

Section new_list_facts.
Implicit Types (self : BlockItemContainer) (w : world) (x k : elem).

(** The numbering identifiers of the paragraphs of a live container, as
    [lists] and the list groups read them. *)
Lemma numIds_live self w x :
resolve w (_element self) = Some x →
mapM Paragraph_numId
  ((λ ic, {| _p := _element self ++ [ic.1]; p_parent := self |}) <$> findall "w:p" x) w
= Some ((λ ic, p_numId ic.2) <$> findall "w:p" x, w).
Proof.
intros Hx.
rewrite (mapM_read _ _ _ _ (λ p, Paragraph_numId_run p w)), <-list_fmap_compose.
do 2 f_equal. apply list_fmap_ext. intros i [j c] Hl.
apply list_elem_of_lookup_2, elem_of_findall in Hl as [Hj _].
cbn. unfold resolve in Hx. by rewrite elem_at_snoc, Hx; cbn; rewrite Hj.
Qed.

Lemma lists_live self w x :
resolve w (_element self) = Some x →
lists self w
= Some ((λ n, {| lp_parent := self; numId := n; lp_style := None; lp_level := None |})
          <$> elements (list_to_set (omap id ((λ ic, p_numId ic.2) <$> findall "w:p" x))
                        : gset Z), w).
Proof.
intros Hx. eapply lists_run; [by apply paragraphs_live|by apply numIds_live].
Qed.
End new_list_facts.

(* ================================================================== *)
(** ** Plain blocks and numbering *)
(* ================================================================== *)

Section plain_block_facts.
Implicit Types (e d c x k : elem) (p : path) (f : elem → elem) (q : node_test).

(** A change that brings nothing at the changed element brings nothing
    in the tree. *)
Lemma present_alter_at_inv q f p d :
(∀ x, elem_at d p = Some x → present q (f x) → present q x) →
present q (alter_at f p d) → present q d.
Proof.
revert d. induction p as [|i p IH]; intros d Hf; simpl; [by apply Hf|].
intros [Hq|(c & Hc & Hqc)]%present_unfold; apply present_unfold; [by left|].
right. cbn [children] in Hc. apply list_elem_of_lookup in Hc as [j Hj].
rewrite list_lookup_alter in Hj. case_decide as Hij.
- subst j. destruct (children d !! i) as [c0|] eqn:Hc0; [|done].
  cbn in Hj. injection Hj as <-. exists c0.
  split; [by eapply list_elem_of_lookup_2|].
  apply IH; [|done]. intros x Hx. apply Hf. simpl. by rewrite Hc0.
- exists c. split; [by eapply list_elem_of_lookup_2|done].
Qed.

Lemma built_p_no_numId n txt style : ¬ taken (built_p txt style) n.
Proof.
unfold taken, built_p, p_set_style, p_add_run, new_p, blank.
destruct (decide (txt = "")), style as [s|]; cbn;
  repeat (apply not_present_elem; [done|]; repeat constructor).
Qed.

Lemma new_tbl_no_numId n rows cols width : ¬ taken (new_tbl rows cols width) n.
Proof.
unfold taken, new_tbl, new_tc, new_gridCol, new_p, blank.
apply not_present_elem; [done|]. constructor; [by apply not_present_elem|].
constructor.
- apply not_present_elem; [done|]. apply Forall_fmap, Forall_forall.
  intros z _. by apply not_present_elem.
- apply Forall_replicate. apply not_present_elem; [done|].
  apply Forall_fmap, Forall_forall. intros z _. cbn.
  repeat (apply not_present_elem; [done|]; repeat constructor).
Qed.

(** Appending a block that holds no numbering identifier leaves every id
    as taken or as free as it was. *)
Lemma taken_alter_at_append_plain k p d n :
¬ taken k n → taken (alter_at (append k) p d) n ↔ taken d n.
Proof.
intros Hk. split.
- apply present_alter_at_inv. intros x _ [?|?]%present_append; [done|].
  by destruct Hk.
- apply present_alter_at_mono. intros x _ ?. apply present_append. by left.
Qed.

(** The loop looks at the tree only through which ids are taken. *)
Lemma generate_numId_same_taken fuel self w v :
(∀ n, taken (tree v) n ↔ taken (tree w) n) →
entropy v = entropy w → cursor v = cursor w →
generate_numId fuel self v
= (λ r, (r.1, with_tree (tree v) r.2)) <$> generate_numId fuel self w.
Proof.
revert w v. induction fuel as [|fuel IH]; intros w v Htaken He Hc; [done|].
rewrite !generate_numId_step. unfold candidate. rewrite He, Hc.
fold (candidate w (cursor w)).
destruct (decide (taken (tree w) (candidate w (cursor w)))) as [Ht|Ht].
- rewrite decide_True by by apply Htaken.
  rewrite (IH (advance w) (advance v)); cbn; [done|done|done|by rewrite Hc].
- rewrite decide_False by by rewrite Htaken.
  cbn. unfold advance, with_tree. cbn. by rewrite He, Hc.
Qed.

Lemma p_numId_built_p txt style : p_numId (built_p txt style) = None.
Proof. unfold built_p. by destruct (decide (txt = "")), style as [s|]; vm_compute. Qed.

(** Appending a block that reads no numbering identifier leaves [lists]
    with the groups it had. *)
Lemma lists_append_plain k self w x :
elem_at (tree w) (_element self) = Some x →
(tag k = "w:p" → p_numId k = None) →
let w' := with_tree (alter_at (append k) (_element self) (tree w)) w in
∃ gs, lists self w = Some (gs, w) ∧ lists self w' = Some (gs, w').
Proof.
intros Hx Hk w'.
destruct (append_block_effect self w x k Hx) as (Hx' & _ & _). fold w' in Hx'.
eexists. rewrite (lists_live _ _ _ Hx), (lists_live _ _ _ Hx').
split; [done|]. rewrite findall_append, fmap_app, omap_app.
case_decide as Ht; cbn; [rewrite (Hk Ht); cbn|]; by rewrite app_nil_r.
Qed.
End plain_block_facts.

(** X4.  Paragraphs and tables added through [add_paragraph] and
    [add_table] take no numbering identifier: after either call every
    integer is the value of a [w:numId] element of the document exactly
    when it was before, so [generate_numId], asked of any container with
    the same draws ahead, gives the id it would have given before the
    call; and [lists] gives the groups it gave before. *)
Theorem plain_blocks_take_no_numId self w x :
elem_at (tree w) (_element self) = Some x →
∃ gs,
  lists self w = Some (gs, w)
  ∧ (∀ txt style, ∃ p w',
       add_paragraph self txt style w = Some (p, w')
       ∧ (∀ n, taken (tree w') n ↔ taken (tree w) n)
       ∧ (∀ fuel other,
            fst <$> generate_numId fuel other w' = fst <$> generate_numId fuel other w)
       ∧ lists self w' = Some (gs, w'))
  ∧ (∀ rows cols width, ∃ t w',
       add_table self rows cols width w = Some (t, w')
       ∧ (∀ n, taken (tree w') n ↔ taken (tree w) n)
       ∧ (∀ fuel other,
            fst <$> generate_numId fuel other w' = fst <$> generate_numId fuel other w)
       ∧ lists self w' = Some (gs, w')).
Proof.
intros Hx.
assert (∀ k, (∀ n, ¬ taken k n) →
  let w' := with_tree (alter_at (append k) (_element self) (tree w)) w in
  (∀ n, taken (tree w') n ↔ taken (tree w) n)
  ∧ ∀ fuel other,
      fst <$> generate_numId fuel other w' = fst <$> generate_numId fuel other w)
  as Hplain.
{ intros k Hk w'.
  assert (∀ n, taken (tree w') n ↔ taken (tree w) n) as Htaken
    by (intros n; by apply taken_alter_at_append_plain).
  split; [done|]. intros fuel other.
  rewrite (generate_numId_same_taken fuel other w w' Htaken eq_refl eq_refl).
  by destruct (generate_numId fuel other w) as [[??]|]. }
destruct (lists self w) as [[gs w0]|] eqn:Hgs;
  [|by rewrite (lists_live _ _ _ Hx) in Hgs].
assert (w0 = w) as -> by (rewrite (lists_live _ _ _ Hx) in Hgs; congruence).
exists gs. split; [done|]. split.
- intros txt style. eexists _, _. rewrite (add_paragraph_run _ _ _ _ _ Hx).
  split; [done|].
  destruct (Hplain (built_p txt style) (λ n, built_p_no_numId n txt style)) as [H1 H2].
  split; [exact H1|]. split; [exact H2|].
  destruct (lists_append_plain (built_p txt style) self w x Hx
              (λ _, p_numId_built_p txt style)) as (gs' & Hgs' & Hafter).
  rewrite Hgs in Hgs'. by injection Hgs' as <-.
- intros rows cols width. eexists _, _. rewrite (add_table_run _ _ _ _ _ _ Hx).
  split; [done|].
  destruct (Hplain (new_tbl rows cols width)
              (λ n, new_tbl_no_numId n rows cols width)) as [H1 H2].
  split; [exact H1|]. split; [exact H2|].
  destruct (lists_append_plain (new_tbl rows cols width) self w x Hx)
    as (gs' & Hgs' & Hafter); [done|].
  rewrite Hgs in Hgs'. by injection Hgs' as <-.
Qed.

(** On the demo document: a paragraph added to the body leaves 1 and 2
    taken and 7 free, the cell is still given 7 after the draws 1 and 2,
    and the body still has its two lists. *)
Lemma plain_blocks_take_no_numId_witness :
elem_at (tree (demo_world [1; 2; 7]%Z)) (_element body)
= Some (Elem "w:body" ∅ ""
          [numbered_p 1; new_p; numbered_p 2; numbered_p 1; new_p;
           Elem "w:tbl" ∅ "" [Elem "w:tr" ∅ "" [demo_cell]]])
∧ ∃ gs p w',
    lists body (demo_world [1; 2; 7]%Z) = Some (gs, demo_world [1; 2; 7]%Z)
    ∧ add_paragraph body "plain" (Some "Quote") (demo_world [1; 2; 7]%Z) = Some (p, w')
    ∧ (taken (tree w') 1 ∧ ¬ taken (tree w') 7)
    ∧ fst <$> generate_numId 3 cell w' = Some 7%Z
    ∧ lists body w' = Some (gs, w').
Proof.
split; [reflexivity|].
destruct (plain_blocks_take_no_numId body (demo_world [1; 2; 7]%Z) _ eq_refl)
  as (gs & Hgs & Hp & _).
destruct (Hp "plain" (Some "Quote")) as (p & w' & Hrun & Htaken & Hgen & Hlists).
exists gs, p, w'. split; [exact Hgs|]. split; [exact Hrun|]. split_and!.
- apply Htaken. apply (bool_decide_unpack (taken _ _)). vm_compute. exact I.
- intros H7%Htaken. revert H7. apply (bool_decide_unpack (¬ taken _ _)).
  vm_compute. exact I.
- rewrite Hgen. vm_compute. reflexivity.
- exact Hlists.
Defined.

(* ================================================================== *)
(** ** The groups and their members *)
(* ================================================================== *)

Section group_facts.
Implicit Types (self : BlockItemContainer) (w : world).

(** Picking from the paragraphs zipped with what was read off them is
    filtering the paragraphs by what is read off them. *)
Lemma omap_zip_fmap {A B} `{EqDecision B} (f : A → B) (b : B) (l : list A) :
omap (λ pi : A * B, if decide (pi.2 = b) then Some pi.1 else None) (zip l (f <$> l))
= filter (λ a, f a = b) l.
Proof.
induction l as [|a l IH]; [done|]. rewrite filter_cons, <-IH. cbn.
by destruct (decide (f a = b)).
Qed.

Lemma items_filter g w ps :
paragraphs (lp_parent g) w = Some (ps, w) →
ListParagraph_items g w
= Some (filter (λ p, elem_at (tree w) (_p p) ≫= p_numId = Some (numId g)) ps, w).
Proof.
intros Hps.
rewrite (items_run g w ps _ Hps (mapM_read _ _ _ _ (λ p, Paragraph_numId_run p w))).
by rewrite omap_zip_fmap.
Qed.
End group_facts.

(** X10.  The groups of [lists] split the numbered paragraphs of the
    container.  Every group [lists] gives has at least one member; its
    members are the paragraphs of the container that carry its id, in
    document order; every paragraph that carries an id is a member of
    the group with that id, and there is one group per id only.  A
    paragraph without numbering identifier is a member of no group. *)
Theorem lists_split_the_numbered_paragraphs self w :
∃ ps gs,
  paragraphs self w = Some (ps, w)
  ∧ lists self w = Some (gs, w)
  ∧ (∀ g, g ∈ gs →
       ∃ items,
         ListParagraph_items g w = Some (items, w)
         ∧ items ≠ []
         ∧ items `sublist_of` ps
         ∧ ∀ p, p ∈ items ↔ p ∈ ps ∧ Paragraph_numId p w = Some (Some (numId g), w))
  ∧ (∀ p n, p ∈ ps → Paragraph_numId p w = Some (Some n, w) →
       ∃ g, g ∈ gs ∧ numId g = n)
  ∧ (∀ g g', g ∈ gs → g' ∈ gs → numId g = numId g' → g = g').
Proof.
destruct (paragraphs self w) as [[ps w0]|] eqn:Hps; [|by rewrite paragraphs_run in Hps].
assert (w0 = w) as -> by (rewrite paragraphs_run in Hps; congruence).
pose proof (mapM_read _ _ ps w (λ p, Paragraph_numId_run p w)) as Hids.
pose proof (lists_run _ _ _ _ Hps Hids) as Hgs.
eexists ps, _. split; [done|]. split; [exact Hgs|].
set (f := λ p : Paragraph, elem_at (tree w) (_p p) ≫= p_numId) in *.
assert (∀ n, n ∈ elements (list_to_set (omap id (f <$> ps)) : gset Z)
             ↔ ∃ p, p ∈ ps ∧ f p = Some n) as Hin.
{ intros n. rewrite elem_of_elements, elem_of_list_to_set, list_elem_of_omap. split.
  - intros (o & (p & -> & Hp)%list_elem_of_fmap & Hid). by exists p.
  - intros (p & Hp & Hn). exists (Some n). split; [|done].
    rewrite <-Hn. by apply list_elem_of_fmap_2. }
assert (∀ p o, Paragraph_numId p w = Some (o, w) ↔ f p = o) as Hread.
{ intros p o. rewrite Paragraph_numId_run. fold (f p). split; [congruence|by intros ->]. }
split_and!.
- intros g (n & -> & Hn)%list_elem_of_fmap. cbn [numId].
  eexists. rewrite (items_filter _ _ ps) by done. cbn [numId]. fold f.
  split; [done|]. apply Hin in Hn as (p & Hp & Hfp). split_and!.
  + intros Hnil. assert (p ∈ filter (λ p, f p = Some n) ps) as Hpf
      by by apply list_elem_of_filter.
    unfold f in Hpf, Hnil. rewrite Hnil in Hpf. by apply not_elem_of_nil in Hpf.
  + apply sublist_filter.
  + intros q. rewrite list_elem_of_filter. fold (f q).
    split; [intros [Hfq Hq]; split; [done|]|intros [Hq Hr]; split; [|done]];
      by apply Hread.
- intros p n Hp Hn%Hread.
  exists {| lp_parent := self; numId := n; lp_style := None; lp_level := None |}.
  split; [|done]. apply list_elem_of_fmap. exists n. split; [done|].
  apply Hin. by exists p.
- intros g g' (n & -> & _)%list_elem_of_fmap (n' & -> & _)%list_elem_of_fmap.
  cbn. by intros ->.
Qed.

(** On the demo body: every group has a member, and the first paragraph,
    which carries the id 1, has its group. *)
Lemma lists_split_the_numbered_paragraphs_witness :
∃ ps gs,
  paragraphs body (demo_world []) = Some (ps, demo_world [])
  ∧ lists body (demo_world []) = Some (gs, demo_world [])
  ∧ (∀ g, g ∈ gs →
       ∃ items, ListParagraph_items g (demo_world []) = Some (items, demo_world [])
                ∧ items ≠ [])
  ∧ ∃ g, g ∈ gs ∧ numId g = 1%Z.
Proof.
destruct (lists_split_the_numbered_paragraphs body (demo_world []))
  as (ps & gs & Hps & Hgs & Hmembers & Hcover & _).
exists ps, gs. split; [exact Hps|]. split; [exact Hgs|]. split.
- intros g Hg. destruct (Hmembers g Hg) as (items & Hit & Hne & _). by exists items.
- apply (Hcover {| _p := [0; 0]; p_parent := body |}).
  + assert (ps = fst (default ([], demo_world []) (paragraphs body (demo_world []))))
      as -> by by rewrite Hps.
    vm_compute. apply list_elem_of_here.
  + vm_compute. reflexivity.
Defined.

(* ================================================================== *)
(** ** Appending several blocks *)
(* ================================================================== *)

Section sequence_facts.
Implicit Types (self : BlockItemContainer) (w : world) (x : elem)
  (calls : list block_call).

Lemma call_block_run self c w x :
elem_at (tree w) (_element self) = Some x →
call_block self c w
= Some (_element self ++ [length (children x)],
        with_tree (alter_at (append (built_block c)) (_element self) (tree w)) w).
Proof.
intros Hx. destruct c as [txt style|rows cols width]; unfold call_block, bind.
- by rewrite (add_paragraph_run _ _ _ _ _ Hx).
- by rewrite (add_table_run _ _ _ _ _ _ Hx).
Qed.

Lemma tag_built_block c : tag (built_block c) = "w:p" ∨ tag (built_block c) = "w:tbl".
Proof. destruct c; [left; apply tag_built_p|by right]. Qed.

Lemma calls_run self calls w x :
elem_at (tree w) (_element self) = Some x →
∃ w' x',
  mapM (call_block self) calls w
  = Some ((λ i, _element self ++ [length (children x) + i]) <$> seq 0 (length calls), w')
  ∧ resolve w' (_element self) = Some x'
  ∧ children x' = children x ++ (built_block <$> calls).
Proof.
revert w x. induction calls as [|c calls IH]; intros w x Hx.
- exists w, x. cbn. by rewrite app_nil_r.
- destruct (append_block_effect self w x (built_block c) Hx) as (Hx1 & _ & _).
  destruct (IH _ _ Hx1) as (w' & x' & Hrun & Hx' & Hch).
  exists w', x'. cbn [mapM]. unfold bind at 1.
  rewrite (call_block_run _ _ _ _ Hx). unfold bind. rewrite Hrun.
  split; [|split; [done|]].
  + unfold ret. do 2 f_equal. cbn [length seq fmap list_fmap].
    rewrite Nat.add_0_r. f_equal.
    rewrite <-fmap_S_seq, <-list_fmap_compose. apply list_fmap_ext.
    intros i j _. cbn. unfold append. cbn. rewrite length_app. cbn.
    by replace (length (children x) + 1 + j) with (length (children x) + S j) by lia.
  + rewrite Hch. unfold append. cbn. by rewrite <-app_assoc.
Qed.
End sequence_facts.



(* ================================================================== *)
(** ** Other containers of the same document *)
(* ================================================================== *)

Section frame_facts.
Implicit Types (e d c x y k : elem) (p q : path) (t : string).

Lemma tag_alter_at_append k p e : tag (alter_at (append k) p e) = tag e.
Proof. by destruct p. Qed.

(** The positions [findall] gives depend on the tags of the children
    only. *)
Lemma findall_fst_same_tags_aux t (g : nat → nat) (l l' : list elem) :
Forall2 (λ c c', tag c = tag c') l l' →
(filter (λ ic, tag ic.2 = t) (imap (λ i, pair (g i)) l)).*1
= (filter (λ ic, tag ic.2 = t) (imap (λ i, pair (g i)) l')).*1.
Proof.
intros Hll'. revert g. induction Hll' as [|c c' l l' Hc Hl IH]; intros g; [done|].
rewrite !imap_cons, !filter_cons. cbn [snd]. rewrite Hc.
case_decide; cbn; [f_equal|]; apply (IH (g ∘ S)).
Qed.

Lemma findall_fst_same_tags t e e' :
Forall2 (λ c c', tag c = tag c') (children e) (children e') →
(findall t e).*1 = (findall t e').*1.
Proof. exact (findall_fst_same_tags_aux t id (children e) (children e')). Qed.

(** Appending to one element leaves every other live element with
    children of the same tags, in the same order. *)
Lemma children_tags_alter_at_append k p d q y :
q ≠ p → elem_at d q = Some y →
∃ y', elem_at (alter_at (append k) p d) q = Some y'
      ∧ Forall2 (λ c c', tag c = tag c') (children y') (children y).
Proof.
revert d q. induction p as [|j p IH]; intros d [|i q] Hne; try done; simpl.
- destruct (children d !! i) as [c|] eqn:Hc; simpl; [|done]. intros Hy.
  exists y. rewrite (lookup_app_l_Some _ _ _ _ Hc). simpl.
  split; [done|]. by apply Forall_Forall2_diag, Forall_forall.
- intros [= <-]. eexists. split; [done|]. simpl.
  apply Forall2_alter_l; [by apply Forall_Forall2_diag, Forall_forall|].
  intros c c' _ _ <-. apply tag_alter_at_append.
- destruct (children d !! i) as [c|] eqn:Hc; simpl; [|done]. intros Hy.
  rewrite list_lookup_alter. case_decide as Hij.
  + subst j. rewrite Hc. simpl. apply IH; [congruence|done].
  + rewrite Hc. simpl. exists y. split; [done|].
    by apply Forall_Forall2_diag, Forall_forall.
Qed.

(** The views of a container after a block was appended elsewhere. *)
Lemma views_frame k self other w :
_element other ≠ _element self → live w other →
let w' := with_tree (alter_at (append k) (_element self) (tree w)) w in
∃ ps ts,
  paragraphs other w = Some (ps, w) ∧ paragraphs other w' = Some (ps, w')
  ∧ tables other w = Some (ts, w) ∧ tables other w' = Some (ts, w').
Proof.
intros Hne [y Hy] w'.
destruct (children_tags_alter_at_append k (_element self) (tree w)
            (_element other) y Hne Hy) as (y' & Hy' & Htags).
eexists _, _.
rewrite (paragraphs_live other w y Hy), (tables_live other w y Hy).
rewrite (paragraphs_live other w' y' Hy'), (tables_live other w' y' Hy').
split; [done|].
assert (∀ {A} (f : nat → A) t, (λ ic : nat * elem, f ic.1) <$> findall t y'
                               = (λ ic : nat * elem, f ic.1) <$> findall t y) as Hsame.
{ intros A f t.
  change ((f ∘ fst) <$> findall t y' = (f ∘ fst) <$> findall t y).
  by rewrite !list_fmap_compose, (findall_fst_same_tags t y' y Htags). }
split; [by rewrite (Hsame _ (λ i, {| _p := _element other ++ [i]; p_parent := other |}))|].
split; [done|].
by rewrite (Hsame _ (λ i, {| _tbl := _element other ++ [i]; tbl_parent := other |})).
Qed.

(** The views of a container over the element a block was appended
    to. *)
Lemma views_alias k self other w x :
_element other = _element self →
elem_at (tree w) (_element self) = Some x →
let w' := with_tree (alter_at (append k) (_element self) (tree w)) w in
let n := length (children x) in
∃ ps ts,
  paragraphs other w = Some (ps, w) ∧ tables other w = Some (ts, w)
  ∧ paragraphs other w'
    = Some (ps ++ (if decide (tag k = "w:p")
                   then [ {| _p := _element self ++ [n]; p_parent := other |} ]
                   else []), w')
  ∧ tables other w'
    = Some (ts ++ (if decide (tag k = "w:tbl")
                   then [ {| _tbl := _element self ++ [n]; tbl_parent := other |} ]
                   else []), w').
Proof.
intros Heq Hx w' n.
destruct (append_block_effect self w x k Hx) as (Hx' & _ & _).
fold w' in Hx'. rewrite <-Heq in Hx, Hx'.
eexists _, _.
rewrite (paragraphs_live other w x Hx), (tables_live other w x Hx).
rewrite (paragraphs_live other w' _ Hx'), (tables_live other w' _ Hx').
rewrite !findall_append, !fmap_app. rewrite Heq.
split; [done|]. split; [done|]. split; by case_decide.
Qed.
End frame_facts.

(** X8.  Containers are views of one shared tree.  After [add_paragraph]
    or [add_table] through a container, a second container proxy over
    the same element shows the new block at the end of its own view, and
    a container over any other element of the document (the cell next
    door, an enclosing body, a cell further down) shows the very
    paragraphs and tables it showed before. *)
Theorem appends_through_other_containers self other w x :
elem_at (tree w) (_element self) = Some x →
live w other →
∃ ps ts,
  paragraphs other w = Some (ps, w) ∧ tables other w = Some (ts, w)
  ∧ (∀ txt style, ∃ p w',
       add_paragraph self txt style w = Some (p, w')
       ∧ (_element other = _element self →
          paragraphs other w' = Some (ps ++ [ {| _p := _p p; p_parent := other |} ], w')
          ∧ tables other w' = Some (ts, w'))
       ∧ (_element other ≠ _element self →
          paragraphs other w' = Some (ps, w') ∧ tables other w' = Some (ts, w')))
  ∧ (∀ rows cols width, ∃ t w',
       add_table self rows cols width w = Some (t, w')
       ∧ (_element other = _element self →
          tables other w' = Some (ts ++ [ {| _tbl := _tbl t; tbl_parent := other |} ], w')
          ∧ paragraphs other w' = Some (ps, w'))
       ∧ (_element other ≠ _element self →
          paragraphs other w' = Some (ps, w') ∧ tables other w' = Some (ts, w'))).
Proof.
intros Hx Hlive.
destruct (paragraphs other w) as [[ps w0]|] eqn:Hps;
  [|by rewrite paragraphs_run in Hps].
assert (w0 = w) as -> by (rewrite paragraphs_run in Hps; congruence).
destruct (tables other w) as [[ts w0]|] eqn:Hts; [|by rewrite tables_run in Hts].
assert (w0 = w) as -> by (rewrite tables_run in Hts; congruence).
exists ps, ts. split; [done|]. split; [done|].
assert (∀ k,
  let w' := with_tree (alter_at (append k) (_element self) (tree w)) w in
  (_element other = _element self →
   paragraphs other w'
   = Some (ps ++ (if decide (tag k = "w:p")
                  then [ {| _p := _element self ++ [length (children x)];
                            p_parent := other |} ] else []), w')
   ∧ tables other w'
     = Some (ts ++ (if decide (tag k = "w:tbl")
                    then [ {| _tbl := _element self ++ [length (children x)];
                              tbl_parent := other |} ] else []), w'))
  ∧ (_element other ≠ _element self →
     paragraphs other w' = Some (ps, w') ∧ tables other w' = Some (ts, w')))
  as Hk.
{ intros k w'. split.
  - intros Heq.
    destruct (views_alias k self other w x Heq Hx) as (ps' & ts' & Hps' & Hts' & H1 & H2).
    rewrite Hps in Hps'. rewrite Hts in Hts'.
    injection Hps' as <-. injection Hts' as <-. done.
  - intros Hne.
    destruct (views_frame k self other w Hne Hlive) as (ps' & ts' & Hps' & H1 & Hts' & H2).
    rewrite Hps in Hps'. rewrite Hts in Hts'.
    injection Hps' as <-. injection Hts' as <-. done. }
split.
- intros txt style. eexists _, _. rewrite (add_paragraph_run _ _ _ _ _ Hx).
  split; [done|]. destruct (Hk (built_p txt style)) as [Ha Hf].
  rewrite tag_built_p in Ha. cbn in Ha. rewrite app_nil_r in Ha. done.
- intros rows cols width. eexists _, _. rewrite (add_table_run _ _ _ _ _ _ Hx).
  split; [done|]. destruct (Hk (new_tbl rows cols width)) as [Ha Hf].
  cbn in Ha. rewrite app_nil_r in Ha. split; [|done].
  intros Heq. by destruct (Ha Heq).
Qed.

(** On the demo document: a paragraph added to the cell shows at the end
    of a second proxy of the cell and leaves the views of the body as
    they were. *)
Lemma appends_through_other_containers_witness :
(elem_at (tree (demo_world [])) (_element cell) = Some demo_cell
 ∧ live (demo_world []) body
 ∧ live (demo_world []) {| _element := _element cell; _parent := [] |})
∧ ∃ p w',
    add_paragraph cell "new" None (demo_world []) = Some (p, w')
    ∧ (∃ ps ts,
         paragraphs body (demo_world []) = Some (ps, demo_world [])
         ∧ tables body (demo_world []) = Some (ts, demo_world [])
         ∧ paragraphs body w' = Some (ps, w') ∧ tables body w' = Some (ts, w'))
    ∧ ∃ ps,
        paragraphs {| _element := _element cell; _parent := [] |} (demo_world [])
        = Some (ps, demo_world [])
        ∧ paragraphs {| _element := _element cell; _parent := [] |} w'
          = Some (ps ++ [ {| _p := _p p;
                             p_parent := {| _element := _element cell;
                                            _parent := [] |} |} ], w').
Proof.
assert (live (demo_world []) body) as Hbody by (by eexists).
assert (live (demo_world []) {| _element := _element cell; _parent := [] |})
  as Halias by (by eexists).
split; [split; [reflexivity|by split]|].
destruct (appends_through_other_containers cell body (demo_world []) demo_cell
            eq_refl Hbody) as (ps & ts & Hps & Hts & Hp & _).
destruct (Hp "new" None) as (p & w' & Hrun & _ & Hframe).
destruct (appends_through_other_containers cell
            {| _element := _element cell; _parent := [] |} (demo_world []) demo_cell
            eq_refl Halias) as (ps2 & ts2 & Hps2 & _ & Hp2 & _).
destruct (Hp2 "new" None) as (p2 & w2 & Hrun2 & Hsame & _).
rewrite Hrun in Hrun2. injection Hrun2 as <- <-.
exists p, w'. split; [exact Hrun|]. split.
- exists ps, ts. destruct Hframe as [H1 H2]; [done|]. by split_and!.
- exists ps2. split; [exact Hps2|]. by destruct (Hsame eq_refl).
Defined.

(* ================================================================== *)
(** ** What an append leaves alone *)
(* ================================================================== *)

Section untouched_facts.
Implicit Types (e d c x y k : elem) (p h : path).

(** Off the way from the root to the element appended to, every live
    handle shows the element it showed. *)
Lemma elem_at_alter_at_append_off k p d h :
is_Some (elem_at d h) → ¬ h `prefix_of` p →
elem_at (alter_at (append k) p d) h = elem_at d h.
Proof.
revert d h. induction p as [|j p IH]; intros d [|i h] Hlive Hoff; simpl.
- destruct Hoff. apply prefix_nil.
- simpl in Hlive. destruct (children d !! i) as [c|] eqn:Hc; [|by destruct Hlive].
  by rewrite (lookup_app_l_Some _ _ _ _ Hc).
- destruct Hoff. apply prefix_nil.
- simpl in Hlive. rewrite list_lookup_alter. case_decide as Hij; [|done].
  subst j. destruct (children d !! i) as [c|] eqn:Hc; [|by destruct Hlive].
  simpl in *. apply IH; [done|]. intros Hpre. apply Hoff. by apply prefix_cons.
Qed.

(** On the way, an element keeps its tag, its attributes and its text. *)
Lemma elem_at_alter_at_append_labels k p d h y :
elem_at d h = Some y →
∃ y', elem_at (alter_at (append k) p d) h = Some y'
      ∧ tag y' = tag y ∧ attrib y' = attrib y ∧ text y' = text y.
Proof.
revert d h. induction p as [|j p IH]; intros d [|i h]; simpl.
- intros [= <-]. by eexists.
- destruct (children d !! i) as [c|] eqn:Hc; simpl; [|done]. intros Hy.
  rewrite (lookup_app_l_Some _ _ _ _ Hc). simpl. by exists y.
- intros [= <-]. by eexists.
- destruct (children d !! i) as [c|] eqn:Hc; simpl; [|done]. intros Hy.
  rewrite list_lookup_alter. case_decide as Hij.
  + subst j. rewrite Hc. simpl. by apply IH.
  + rewrite Hc. simpl. by exists y.
Qed.
End untouched_facts.

(** X9.  An append touches the way down to the container only.  After
    [add_paragraph] or [add_table] through a container, every element
    that was in the document is still behind its handle with the tag,
    the attributes and the text it had; and unless it is the container's
    element or one of its ancestors, it is the same element as before,
    children and all.  A proxy taken before the call (a paragraph, a
    table, another cell) keeps showing what it showed. *)
Theorem appends_touch_the_way_down_only self w x :
elem_at (tree w) (_element self) = Some x →
(∀ txt style, ∃ p w',
   add_paragraph self txt style w = Some (p, w')
   ∧ (∀ h y, resolve w h = Some y →
        ∃ y', resolve w' h = Some y'
              ∧ tag y' = tag y ∧ attrib y' = attrib y ∧ text y' = text y)
   ∧ (∀ h y, resolve w h = Some y → ¬ h `prefix_of` _element self →
        resolve w' h = Some y))
∧ (∀ rows cols width, ∃ t w',
     add_table self rows cols width w = Some (t, w')
     ∧ (∀ h y, resolve w h = Some y →
          ∃ y', resolve w' h = Some y'
                ∧ tag y' = tag y ∧ attrib y' = attrib y ∧ text y' = text y)
     ∧ (∀ h y, resolve w h = Some y → ¬ h `prefix_of` _element self →
          resolve w' h = Some y)).
Proof.
intros Hx.
assert (∀ k,
  let w' := with_tree (alter_at (append k) (_element self) (tree w)) w in
  (∀ h y, resolve w h = Some y →
     ∃ y', resolve w' h = Some y'
           ∧ tag y' = tag y ∧ attrib y' = attrib y ∧ text y' = text y)
  ∧ (∀ h y, resolve w h = Some y → ¬ h `prefix_of` _element self →
       resolve w' h = Some y)) as Hk.
{ intros k w'. split.
  - intros h y Hy. by apply elem_at_alter_at_append_labels.
  - intros h y Hy Hoff. unfold resolve in *. cbn [w' with_tree tree].
    by rewrite elem_at_alter_at_append_off. }
split.
- intros txt style. eexists _, _. rewrite (add_paragraph_run _ _ _ _ _ Hx).
  split; [done|]. apply Hk.
- intros rows cols width. eexists _, _. rewrite (add_table_run _ _ _ _ _ _ Hx).
  split; [done|]. apply Hk.
Qed.

(** On the demo document: a paragraph added to the cell leaves the third
    paragraph of the body as it was, and the body a [w:body]. *)
Lemma appends_touch_the_way_down_only_witness :
elem_at (tree (demo_world [])) (_element cell) = Some demo_cell
∧ ∃ p w',
    add_paragraph cell "new" None (demo_world []) = Some (p, w')
    ∧ resolve w' [0; 2] = Some (numbered_p 2)
    ∧ ∃ y', resolve w' [0] = Some y' ∧ tag y' = "w:body".
Proof.
split; [reflexivity|].
destruct (proj1 (appends_touch_the_way_down_only cell (demo_world []) demo_cell eq_refl)
            "new" None) as (p & w' & Hrun & Hlabels & Hoff).
exists p, w'. split; [exact Hrun|]. split.
- apply Hoff; [reflexivity|]. intros [l Hl]. discriminate Hl.
- destruct (Hlabels [0] _ eq_refl) as (y' & Hy' & Ht & _). by exists y'.
Defined.
